(** * flow-evm-gateway: height-indexed storage and cross-spork routing

    A shallow embedding of the block index ([storage/pebble] blocks),
    the receipt index ([storage/pebble/receipts.go]), the cross-spork
    client router and [api/encode_transaction.go], with the properties
    of the specification stated and settled against it. *)

From stdpp Require Import gmap list strings sorting.
From Stdlib Require Import ZArith Lia.

Local Open Scope Z_scope.

(** Byte strings are lists of integers in [0, 256). *)
Abbreviation bytes := (list Z) (only parsing).

(* ===================================================================== *)
(** ** Machine integers and the big-endian height encoding *)
(* ===================================================================== *)

Definition MaxUint64 : Z := 2 ^ 64 - 1.

(** [uint64] arithmetic wraps around. *)
Definition wrap64 (z : Z) : Z := z mod 2 ^ 64.

Definition is_uint64 (z : Z) : Prop := 0 <= z <= MaxUint64.

(** The [n] low bytes of [z], most significant first. *)
Fixpoint be_bytes (n : nat) (z : Z) : bytes :=
  match n with
  | O => []
  | S n' => (z / 256 ^ Z.of_nat n') mod 256 :: be_bytes n' z
  end.

(** Big-endian value of a byte string. *)
Definition be_value (b : bytes) : Z :=
  fold_left (fun acc x => acc * 256 + x) b 0.

(** Modelled from the spec: the helper [uint64Bytes] is declared outside
    the given sources; the key layout is "8-byte big-endian height". *)
Definition uint64Bytes (height : Z) : bytes := be_bytes 8 height.
Arguments uint64Bytes : simpl never.

(** [binary.BigEndian.Uint64]: reads the first eight bytes and panics
    (here: [None]) on a shorter slice. *)
Definition BigEndian_Uint64 (b : bytes) : option Z :=
  if decide (8 <= length b)%nat then Some (be_value (take 8 b)) else None.

(** [bytes.Compare]: lexicographic order, the order of the key-value
    engine. *)
Fixpoint bytes_compare (a b : bytes) : comparison :=
  match a, b with
  | [], [] => Eq
  | [], _ :: _ => Lt
  | _ :: _, [] => Gt
  | x :: a', y :: b' =>
      match x ?= y with
      | Eq => bytes_compare a' b'
      | c => c
      end
  end.

Definition bytes_leb (a b : bytes) : bool :=
  match bytes_compare a b with Gt => false | _ => true end.

Definition bytes_ltb (a b : bytes) : bool :=
  match bytes_compare a b with Lt => true | _ => false end.

(* ===================================================================== *)
(** ** Errors and the state-and-error monad *)
(* ===================================================================== *)

Inductive error : Type :=
| ErrNotFound                          (* errs.NotFound, errs.ErrEntityNotFound *)
| ErrNotInitialized                    (* errs.NotInitialized *)
| ErrInvalidBlockRange                 (* errs.ErrInvalidBlockRange *)
| ErrInvalid                           (* errs.ErrInvalid *)
| ErrEngine                            (* a fault of the key-value engine *)
| ErrCodec                             (* an encoder or decoder failure *)
| ErrPanic                             (* a run-time panic *)
| ErrMsg (msg : string)                (* fmt.Errorf with no wrapped error *)
| ErrWrap (msg : string) (e : error)   (* fmt.Errorf with one %w *)
| ErrWrap2 (e1 e2 : error).            (* fmt.Errorf("%w: %w", e1, e2) *)

Inductive result (A : Type) : Type :=
| Ok (a : A)
| Err (e : error).
Arguments Ok {A} a.
Arguments Err {A} e.

Definition is_ok {A} (r : result A) : bool :=
  match r with Ok _ => true | Err _ => false end.

#[global] Instance error_eq_dec : EqDecision error.
Proof. solve_decision. Defined.

(** [errors.Is]: the target is the error itself or is wrapped in it. *)
Fixpoint errors_Is (e target : error) : bool :=
  if decide (e = target) then true
  else match e with
       | ErrWrap _ e' => errors_Is e' target
       | ErrWrap2 e1 e2 => errors_Is e1 target || errors_Is e2 target
       | _ => false
       end.

Section Monad.
Context {S : Type}.

(** A computation over a mutable state [S] that may fail; the state
    reached is kept on failure, as writes already made are in Go. *)
Definition M (A : Type) : Type := S -> result A * S.

Definition ret {A} (a : A) : M A := fun s => (Ok a, s).
Definition throw {A} (e : error) : M A := fun s => (Err e, s).
Definition bind {A B} (m : M A) (k : A -> M B) : M B :=
  fun s => match m s with
           | (Ok a, s') => k a s'
           | (Err e, s') => (Err e, s')
           end.
Definition lift {A} (r : result A) : M A := fun s => (r, s).
(** [if err != nil { return fmt.Errorf("msg: %w", err) }] *)
Definition wrapping {A} (msg : string) (m : M A) : M A :=
  fun s => match m s with
           | (Ok a, s') => (Ok a, s')
           | (Err e, s') => (Err (ErrWrap msg e), s')
           end.
Definition modify (f : S -> S) : M unit := fun s => (Ok tt, f s).
End Monad.
Arguments M : clear implicits.

Declare Scope go_scope.
Delimit Scope go_scope with go.
Notation "x <- m ;; k" := (bind m (fun x => k))
  (at level 100, m at next level, right associativity) : go_scope.
Notation "m ;;; k" := (bind m (fun _ => k))
  (at level 100, right associativity) : go_scope.

(* ===================================================================== *)
(** ** The key-value engine *)
(* ===================================================================== *)

(** Modelled from the spec: the persisted key codes are declared outside
    the given sources ("one-byte code prefix ... per logical index").
    Only their being pairwise distinct matters. *)
Definition blockHeightKey : Z := 1.
Definition blockIDToHeightKey : Z := 2.
Definition evmHeightToCadenceHeightKey : Z := 3.
Definition receiptTxIDToHeightKey : Z := 20.
Definition receiptHeightKey : Z := 21.
Definition bloomHeightKey : Z := 22.
Definition latestEVMHeightKey : Z := 100.
Definition firstEVMHeightKey : Z := 101.

(** Modelled from the spec: the [Storage] wrapper and the engine under it
    are outside the given sources.  The contract used is
    [get(code, key...) -> value | NotFound], [set(code, key, value, batch?)],
    an atomic batch committed by the caller, and an ordered iterator with
    inclusive lower and exclusive upper byte bounds.  Engine faults are
    made explicit: reads fail when [reads_ok] is off, and only
    [writes_left] further writes succeed when it is set. *)
Record Storage : Type := mkStorage {
  db : gmap (list Z) (list Z);
  reads_ok : bool;
  writes_left : option nat
}.

(** Pending writes of an atomic batch, oldest first. *)
Abbreviation Batch := (list (list Z * list Z)) (only parsing).

(** Modelled from the spec: the helpers [makePrefix] and [stripPrefix]
    are declared outside the given sources; a persisted key is the
    "one-byte code prefix" followed by the sub-keys. *)
Definition makePrefix (code : Z) (key : list bytes) : bytes :=
  code :: concat key.

Definition stripPrefix (key : bytes) : bytes := drop 1 key.

Definition Storage_get (s : Storage) (keyCode : Z) (key : list bytes)
  : result bytes :=
  if reads_ok s then
    match db s !! makePrefix keyCode key with
    | Some v => Ok v
    | None => Err ErrNotFound
    end
  else Err ErrEngine.

(** One write reaching the engine. *)
Definition engine_set (k v : bytes) (s : Storage) : result unit * Storage :=
  match writes_left s with
  | None => (Ok tt, mkStorage (<[k := v]> (db s)) (reads_ok s) None)
  | Some (S n) => (Ok tt, mkStorage (<[k := v]> (db s)) (reads_ok s) (Some n))
  | Some O => (Err ErrEngine, s)
  end.

(** [set]: on a batch when one is given, else directly on the engine. *)
Definition Storage_set (keyCode : Z) (key value : bytes)
  : M (Storage * option Batch) unit :=
  fun '(s, batch) =>
    let prefixedKey := makePrefix keyCode [key] in
    match batch with
    | Some b => (Ok tt, (s, Some (b ++ [(prefixedKey, value)])))
    | None => let '(r, s') := engine_set prefixedKey value s in (r, (s', None))
    end.

(** Reading through an indexed batch: its latest pending write wins. *)
Definition Storage_batchGet (s : Storage) (batch : Batch) (keyCode : Z)
    (key : list bytes) : result bytes :=
  let k := makePrefix keyCode key in
  match find (fun kv => bool_decide (kv.1 = k)) (reverse batch) with
  | Some kv => Ok kv.2
  | None => Storage_get s keyCode key
  end.

(** Committing a batch applies all of its writes or none. *)
Definition apply_batch (b : Batch) (m : gmap (list Z) (list Z))
  : gmap (list Z) (list Z) :=
  fold_left (fun m kv => <[kv.1 := kv.2]> m) b m.

Definition Batch_Commit (b : Batch) (s : Storage) : result unit * Storage :=
  match writes_left s with
  | None => (Ok tt, mkStorage (apply_batch b (db s)) (reads_ok s) None)
  | Some (S n) =>
      (Ok tt, mkStorage (apply_batch b (db s)) (reads_ok s) (Some n))
  | Some O => (Err ErrEngine, s)
  end.

Definition key_le (a b : list Z * list Z) : Prop :=
  bytes_leb a.1 b.1 = true.

#[global] Instance key_le_dec a b : Decision (key_le a b).
Proof. unfold key_le. apply _. Defined.

(** The pairs an iterator with bounds [lower, upper) visits, in key
    order. *)
Definition iter_range (m : gmap (list Z) (list Z)) (lower upper : bytes)
  : list (list Z * list Z) :=
  merge_sort key_le
    (filter (fun kv => bytes_leb lower kv.1 = true /\ bytes_ltb kv.1 upper = true)
            (map_to_list m)).

Definition Storage_NewIter (s : Storage) (lower upper : bytes)
  : result (list (list Z * list Z)) :=
  if reads_ok s then Ok (iter_range (db s) lower upper) else Err ErrEngine.


(* ===================================================================== *)
(** ** Block index *)
(* ===================================================================== *)

(** Modelled from the spec: the block type and its codec come from an
    imported package.  Of a block only [Height] is read here; [Payload]
    stands for its remaining fields. *)
Record Block : Type := mkBlock {
  Height : Z;
  Payload : list Z
}.

(** [block.ToBytes], [block.Hash] and [types.NewBlockFromBytes]. *)
Class BlockCodec : Type := {
  ToBytes : Block -> result bytes;
  Hash : Block -> result bytes;
  NewBlockFromBytes : bytes -> result Block
}.

Module Blocks.

Record Blocks : Type := mkBlocks {
  store : Storage;
  heightCache : gmap Z Z
}.

(** Reading a Go map at a missing key yields the zero value. *)
Definition cache_at (b : Blocks) (keyCode : Z) : Z :=
  default 0 (heightCache b !! keyCode).

Definition store_get (keyCode : Z) (key : list bytes) : M Blocks bytes :=
  fun b => (Storage_get (store b) keyCode key, b).

(** The three-argument [set] of this file: always a top-level write. *)
Definition store_set (keyCode : Z) (key value : bytes) : M Blocks unit :=
  fun b =>
    let '(r, (s', _)) := Storage_set keyCode key value (store b, None) in
    (r, mkBlocks s' (heightCache b)).

Local Open Scope go_scope.

Definition setLastHeight (height : Z) : M Blocks unit :=
  store_set latestEVMHeightKey [] (uint64Bytes height) ;;;
  (* update cache *)
  modify (fun b => mkBlocks (store b) (<[latestEVMHeightKey := height]> (heightCache b))).

Definition getHeight (keyCode : Z) : M Blocks Z :=
  fun b =>
    if decide (cache_at b keyCode <> 0) then (Ok (cache_at b keyCode), b)
    else
      match Storage_get (store b) keyCode [] with
      | Err e =>
          if errors_Is e ErrNotFound then (Err ErrNotInitialized, b)
          else (Err (ErrWrap "failed to get height" e), b)
      | Ok val =>
          match BigEndian_Uint64 val with
          | None => (Err ErrPanic, b)
          | Some h => (Ok h, mkBlocks (store b) (<[keyCode := h]> (heightCache b)))
          end
      end.

Definition LatestEVMHeight : M Blocks Z := getHeight latestEVMHeightKey.
Definition FirstEVMHeight : M Blocks Z := getHeight firstEVMHeightKey.

Definition storeInitHeight (height : Z) : M Blocks unit :=
  fun b =>
    let err1 := Storage_get (store b) firstEVMHeightKey [] in
    if match err1 with
       | Err e => negb (errors_Is e ErrNotFound)
       | Ok _ => false
       end
    then (Err (ErrMsg "existing first height can not be overwritten"), b)
    else
      let err2 := Storage_get (store b) latestEVMHeightKey [] in
      if match err2 with
         | Err e => negb (errors_Is e ErrNotFound)
         | Ok _ => false
         end
      then (Err (ErrMsg "existing latest height can not be overwritten"), b)
      else
        (* todo batch *)
        (store_set firstEVMHeightKey [] (uint64Bytes height) ;;;
         store_set latestEVMHeightKey [] (uint64Bytes height)) b.

Definition WithInitHeight (height : Z) : M Blocks unit :=
  storeInitHeight height.

Fixpoint run_opts (opts : list (M Blocks unit)) : M Blocks unit :=
  match opts with
  | [] => ret tt
  | opt :: rest => opt ;;; run_opts rest
  end.

(** [NewBlocks]: a fresh handle with an empty cache, then the options in
    order.  The store is shared, so the writes of options that ran stay
    in it even when a later option makes the constructor fail. *)
Definition NewBlocks (s : Storage) (opts : list (M Blocks unit))
  : result Blocks * Storage :=
  match run_opts opts (mkBlocks s ∅) with
  | (Ok _, blk) => (Ok blk, store blk)
  | (Err e, blk) => (Err e, store blk)
  end.

Section WithCodec.
Context `{BlockCodec}.

Definition getBlock (keyCode : Z) (key : bytes) : M Blocks Block :=
  data <- store_get keyCode [key] ;;
  lift (NewBlockFromBytes data).

Definition Store (cadenceHeight : Z) (block : Block) : M Blocks unit :=
  val <- lift (ToBytes block) ;;
  id <- lift (Hash block) ;;
  (* todo batch operations *)
  let evmHeight := uint64Bytes (Height block) in
  store_set blockHeightKey evmHeight val ;;;
  store_set blockIDToHeightKey id evmHeight ;;;
  store_set evmHeightToCadenceHeightKey evmHeight (uint64Bytes cadenceHeight) ;;;
  setLastHeight (Height block).

Definition GetByHeight (height : Z) : M Blocks Block :=
  first <- FirstEVMHeight ;;
  last <- LatestEVMHeight ;;
  (* check if the requested height is within the known range *)
  if decide (height < first \/ height > last) then throw ErrNotFound
  else getBlock blockHeightKey (uint64Bytes height).

Definition GetByID (ID : bytes) : M Blocks Block :=
  height <- store_get blockIDToHeightKey [ID] ;;
  getBlock blockHeightKey height.

Definition getCadenceHeight (evmHeight : Z) : M Blocks Z :=
  val <- store_get evmHeightToCadenceHeightKey [uint64Bytes evmHeight] ;;
  match BigEndian_Uint64 val with
  | Some h => ret h
  | None => throw ErrPanic
  end.

Definition GetCadenceHeight (evmHeight : Z) : M Blocks Z :=
  getCadenceHeight evmHeight.

Definition LatestCadenceHeight : M Blocks Z :=
  latestEVM <- getHeight latestEVMHeightKey ;;
  getCadenceHeight latestEVM.
End WithCodec.

End Blocks.

(* ===================================================================== *)
(** ** Receipt index *)
(* ===================================================================== *)

(** Modelled from the spec: the log and receipt types come from imported
    packages.  The fields below are the ones the receipt index reads or
    writes; [Rest] stands for the other persisted receipt fields.  A
    log's block and transaction cross-references and its index are "not
    persisted -- they are derived at read time from the owning receipt". *)
Module Log.
Record t : Type := mk {
  Address : list Z;
  Topics : list (list Z);
  Data : list Z;
  (* derived fields *)
  BlockNumber : Z;
  TxHash : list Z;
  TxIndex : Z;
  BlockHash : list Z;
  Index : Z
}.
End Log.

Module StorageReceipt.
Record t : Type := mk {
  Bloom : list Z;
  Logs : list Log.t;
  TxHash : list Z;
  BlockHash : list Z;
  BlockNumber : Z;            (* *big.Int *)
  TransactionIndex : Z;
  Rest : list Z
}.
End StorageReceipt.

Module BloomsHeight.
Record t : Type := mk {
  Blooms : list (list Z);
  Height : Z
}.
End BloomsHeight.

(** [big.Int.Uint64]: the low 64 bits of the magnitude. *)
Definition BigInt_Uint64 (x : Z) : Z := Z.abs x mod 2 ^ 64.

(** [rlp.EncodeToBytes] and [rlp.DecodeBytes] at the two types stored. *)
Class ReceiptCodec : Type := {
  EncodeReceipts : list StorageReceipt.t -> result bytes;
  DecodeReceipts : bytes -> result (list StorageReceipt.t);
  EncodeBlooms : list bytes -> result bytes;
  DecodeBlooms : bytes -> result (list bytes)
}.

Module Receipts.

Local Open Scope go_scope.

Definition store_get (keyCode : Z) (key : list bytes) : M Storage bytes :=
  fun s => (Storage_get s keyCode key, s).

Definition store_batchGet (batch : Batch) (keyCode : Z) (key : list bytes)
  : M Storage bytes :=
  fun s => (Storage_batchGet s batch keyCode key, s).

(** The body of the inner loop of [getByBlockHeight]. *)
Definition populate_log (rcp : StorageReceipt.t) (i : nat) (l : Log.t) : Log.t :=
  Log.mk (Log.Address l) (Log.Topics l) (Log.Data l)
    (BigInt_Uint64 (StorageReceipt.BlockNumber rcp))
    (StorageReceipt.TxHash rcp)
    (StorageReceipt.TransactionIndex rcp)
    (StorageReceipt.BlockHash rcp)
    (Z.of_nat i).

(** The logs are held by pointer, so the loop updates them in place. *)
Definition populate (rcp : StorageReceipt.t) : StorageReceipt.t :=
  StorageReceipt.mk (StorageReceipt.Bloom rcp)
    (imap (populate_log rcp) (StorageReceipt.Logs rcp))
    (StorageReceipt.TxHash rcp) (StorageReceipt.BlockHash rcp)
    (StorageReceipt.BlockNumber rcp) (StorageReceipt.TransactionIndex rcp)
    (StorageReceipt.Rest rcp).

Definition getLast : M Storage Z :=
  l <- wrapping "failed getting latest EVM height"
         (store_get latestEVMHeightKey []) ;;
  match BigEndian_Uint64 l with
  | Some h => ret h
  | None => throw ErrPanic
  end.

Section WithCodec.
Context `{ReceiptCodec}.

(** The loop of [Store] from a given accumulator [(height, blooms)]. *)
Fixpoint store_loop (receipts : list StorageReceipt.t) (height : Z)
    (blooms : list bytes) : M (Storage * option Batch) (Z * list bytes) :=
  match receipts with
  | [] => ret (height, blooms)
  | receipt :: rest =>
      let h := BigInt_Uint64 (StorageReceipt.BlockNumber receipt) in
      if decide (height <> 0 /\ h <> height) then (* extra safety check *)
        throw (ErrMsg "can't store receipts for multiple heights")
      else
        wrapping "failed to store receipt tx ID to height mapping"
          (Storage_set receiptTxIDToHeightKey (StorageReceipt.TxHash receipt)
                       (uint64Bytes h)) ;;;
        store_loop rest h (blooms ++ [StorageReceipt.Bloom receipt])
  end.

Definition Store (receipts : list StorageReceipt.t)
  : M (Storage * option Batch) unit :=
  acc <- store_loop receipts 0 [] ;;
  let height := acc.1 in
  let blooms := acc.2 in
  receiptBytes <- lift (EncodeReceipts receipts) ;;
  let heightBytes := uint64Bytes height in
  wrapping "failed to store receipt height"
    (Storage_set receiptHeightKey heightBytes receiptBytes) ;;;
  bloomBytes <- wrapping "failed to encode blooms for height"
                  (lift (EncodeBlooms blooms)) ;;
  wrapping "failed to store blooms at height"
    (Storage_set bloomHeightKey heightBytes bloomBytes).

Definition getByBlockHeight (height : bytes) (batch : option Batch)
  : M Storage (list StorageReceipt.t) :=
  val <- match batch with
         | Some b => store_batchGet b receiptHeightKey [height]
         | None => store_get receiptHeightKey [height]
         end ;;
  receipts <- wrapping "failed to RLP-decode block receipts at height"
                (lift (DecodeReceipts val)) ;;
  (* dynamically populate the values since they are not stored to save space *)
  ret (map populate receipts).

Definition GetByBlockHeight (height : Z) : M Storage (list StorageReceipt.t) :=
  getByBlockHeight (uint64Bytes height) None.

Definition GetByTransactionID (ID : bytes) : M Storage StorageReceipt.t :=
  height <- wrapping "failed to get receipt by tx ID"
              (store_get receiptTxIDToHeightKey [ID]) ;;
  receipts <- wrapping "failed to get receipt by height"
                (getByBlockHeight height None) ;;
  match find (fun rcp => bool_decide (StorageReceipt.TxHash rcp = ID)) receipts with
  | Some rcp => ret rcp
  | None => throw ErrNotFound
  end.

(** The iteration of [BloomsForBlockRange] over the pairs the iterator
    visits. *)
Fixpoint scan_blooms (visited : list (list Z * list Z))
    (bloomsHeights : list BloomsHeight.t) : result (list BloomsHeight.t) :=
  match visited with
  | [] => Ok bloomsHeights
  | (key, val) :: rest =>
      let height := stripPrefix key in
      match DecodeBlooms val with
      | Err e => Err (ErrWrap "failed to RLP-decode blooms for range" e)
      | Ok bloomsHeight =>
          match BigEndian_Uint64 height with
          | None => Err ErrPanic
          | Some h =>
              scan_blooms rest (bloomsHeights ++ [BloomsHeight.mk bloomsHeight h])
          end
      end
  end.

Definition BloomsForBlockRange (start end_ : Z) : M Storage (list BloomsHeight.t) :=
  if decide (start > end_) then
    throw (ErrWrap "start value is bigger than end value" ErrInvalidBlockRange)
  else
    (* make sure the first and last height are within indexed values *)
    last <- wrapping "failed getting first and last height" getLast ;;
    if decide (start > last) then
      throw (ErrWrap "start value is not within the indexed range"
                     ErrInvalidBlockRange)
    else if decide (end_ > last) then
      throw (ErrWrap "end value is not within the indexed range"
                     ErrInvalidBlockRange)
    else
      (* we increase end by 1 since the range is exclusive at the upper boundary *)
      let endInclusive := wrap64 (end_ + 1) in
      iterator <- (fun s =>
        (Storage_NewIter s
           (makePrefix bloomHeightKey [uint64Bytes start])          (* inclusive *)
           (makePrefix bloomHeightKey [uint64Bytes endInclusive]),  (* exclusive *)
         s)) ;;
      lift (scan_blooms iterator []).
End WithCodec.

End Receipts.

(* ===================================================================== *)
(** ** Cross-spork router *)
(* ===================================================================== *)

Module CrossSpork.

(** Modelled from the spec: the router itself is outside the given
    sources, which hold only its tests.  "State: an ascending-ordered set
    of boundaries [(lastHeight, endpoint)] plus one distinguished current
    endpoint (no upper bound)."  An endpoint is identified by its host. *)
Record CrossSporkClient : Type := mkClient {
  current : string;
  sporkBoundaries : list (Z * string)
}.

(** Modelled from the spec: [NewCrossSporkClient] starts from the current
    endpoint with no boundary registered. *)
Definition NewCrossSporkClient (currentSpork : string) : CrossSporkClient :=
  mkClient currentSpork [].

(** Ordered insertion of a boundary. *)
Fixpoint insert_boundary (lastHeight : Z) (host : string)
    (bs : list (Z * string)) : list (Z * string) :=
  match bs with
  | [] => [(lastHeight, host)]
  | b :: rest =>
      if decide (lastHeight < b.1) then (lastHeight, host) :: b :: rest
      else b :: insert_boundary lastHeight host rest
  end.

(** Modelled from the spec: "[AddSpork(lastHeight, endpoint)]: inserts a
    new boundary, keeping order; fails if [lastHeight] is already
    registered (duplicate-boundary error)". *)
Definition AddSpork (lastHeight : Z) (host : string) (c : CrossSporkClient)
  : result CrossSporkClient :=
  if decide (lastHeight ∈ (sporkBoundaries c).*1) then
    Err (ErrMsg "provided last height already exists")
  else
    Ok (mkClient (current c) (insert_boundary lastHeight host (sporkBoundaries c))).

(** Modelled from the spec: "[getClientForHeight(h)]: returns the endpoint
    of the first boundary with [lastHeight >= h] ...; if no boundary
    qualifies, returns the current endpoint". *)
Definition getClientForHeight (c : CrossSporkClient) (height : Z) : string :=
  match find (fun b => bool_decide (b.1 >= height)) (sporkBoundaries c) with
  | Some b => b.2
  | None => current c
  end.

(** A sequence of [AddSpork] calls, stopping at the first that fails. *)
Fixpoint add_sporks (sporks : list (Z * string)) (c : CrossSporkClient)
  : result CrossSporkClient :=
  match sporks with
  | [] => Ok c
  | (lastHeight, host) :: rest =>
      match AddSpork lastHeight host c with
      | Ok c' => add_sporks rest c'
      | Err e => Err e
      end
  end.

End CrossSpork.

(* ===================================================================== *)
(** ** Building the unsigned call transaction *)
(* ===================================================================== *)

Module Api.

(** The fields of the request arguments that [encodeTxFromArgs] reads;
    a nil pointer is [None]. *)
Record TransactionArgs : Type := mkArgs {
  To : option (list Z);
  Gas : option Z;
  Value : option Z;
  Data : option (list Z);
  Input : option (list Z)
}.

Module LegacyTx.
Record t : Type := mk {
  Nonce : Z;
  To : option (list Z);
  Value : Z;
  Gas : Z;
  GasPrice : Z;
  Data : list Z
}.
End LegacyTx.

(** [types.NewTx] wraps the transaction data. *)
Record Transaction : Type := NewTx { inner : LegacyTx.t }.

(** [tx.MarshalBinary], of the imported transaction package. *)
Class TxCodec : Type := {
  MarshalBinary : Transaction -> result bytes
}.

Definition blockGasLimit : Z := 15000000.

Section WithCodec.
Context `{TxCodec}.

Definition encodeTxFromArgs (args : TransactionArgs) : result bytes :=
  let data : bytes :=
    match Data args with
    | Some d => d
    | None => match Input args with
              | Some i => i
              | None => []
              end
    end in
  (* provide a high enough gas for the tx to be able to execute,
     capped by the gas set in transaction args. *)
  let gasLimit :=
    match Gas args with
    | Some g => g   (* uint64 of a hexutil.Uint64: the same number *)
    | None => blockGasLimit
    end in
  let value :=
    match Value args with
    | Some v => v
    | None => 0
    end in
  let tx := NewTx (LegacyTx.mk 0 (To args) value gasLimit 0 data) in
  match MarshalBinary tx with
  | Err err => Err (ErrWrap2 ErrInvalid err)
  | Ok enc => Ok enc
  end.
End WithCodec.

End Api.

(* ===================================================================== *)
(** ** Vocabulary of the statements *)
(* ===================================================================== *)

(** The watermark stored under a one-byte key. *)
Definition stored_height (s : Storage) (keyCode : Z) : option Z :=
  db s !! [keyCode] ≫= BigEndian_Uint64.

(** Every non-zero cache entry is the stored watermark. *)
Definition cache_coherent (b : Blocks.Blocks) : Prop :=
  forall k c, Blocks.heightCache b !! k = Some c -> c <> 0 ->
              stored_height (Blocks.store b) k = Some c.

(** What [getBlock] yields from a readable store. *)
Definition block_at `{BlockCodec} (s : Storage) (h : Z) : result Block :=
  match db s !! (blockHeightKey :: uint64Bytes h) with
  | Some data => NewBlockFromBytes data
  | None => Err ErrNotFound
  end.

(** The four top-level writes of one [Blocks.Store] call, in the order
    the source issues them; [val] and [id] are the block's bytes and
    hash. *)
Definition block_writes (cadenceHeight : Z) (block : Block) (val id : bytes)
  : Batch :=
  let evmHeight := uint64Bytes (Height block) in
  [ (makePrefix blockHeightKey [evmHeight], val);
    (makePrefix blockIDToHeightKey [id], evmHeight);
    (makePrefix evmHeightToCadenceHeightKey [evmHeight], uint64Bytes cadenceHeight);
    (makePrefix latestEVMHeightKey [[]], uint64Bytes (Height block)) ].

(** The outcome of the height check of [Receipts.Store] on the heights
    of the receipts, read off the loop: the accumulator when the check
    never fires, nothing when it does. *)
Fixpoint height_check (hs : list Z) (height : Z) : option Z :=
  match hs with
  | [] => Some height
  | h :: rest =>
      if decide (height <> 0 /\ h <> height) then None
      else height_check rest h
  end.

Definition receipt_height (r : StorageReceipt.t) : Z :=
  BigInt_Uint64 (StorageReceipt.BlockNumber r).

(** The per-transaction writes of one [Receipts.Store] call. *)
Definition tx_writes (rs : list StorageReceipt.t) : Batch :=
  map (fun r => (makePrefix receiptTxIDToHeightKey [StorageReceipt.TxHash r],
                 uint64Bytes (receipt_height r))) rs.

(** Writes land on the batch when there is one, else on the engine. *)
Definition put_all (ws : Batch) (st : Storage * option Batch)
  : Storage * option Batch :=
  match st.2 with
  | Some b => (st.1, Some (b ++ ws))
  | None =>
      (mkStorage (apply_batch ws (db st.1)) (reads_ok st.1) (writes_left st.1),
       None)
  end.

(** No write can fault: a batch is given or the engine never faults. *)
Definition accepts_writes (st : Storage * option Batch) : Prop :=
  st.2 = None -> writes_left st.1 = None.

(** Two receipts agree on what is persisted: every receipt field, and of
    each log its address, topics and data. *)
Definition same_persisted_log (l d : Log.t) : Prop :=
  Log.Address d = Log.Address l /\ Log.Topics d = Log.Topics l
  /\ Log.Data d = Log.Data l.

Definition same_persisted (r d : StorageReceipt.t) : Prop :=
  StorageReceipt.Bloom d = StorageReceipt.Bloom r
  /\ StorageReceipt.TxHash d = StorageReceipt.TxHash r
  /\ StorageReceipt.BlockHash d = StorageReceipt.BlockHash r
  /\ StorageReceipt.BlockNumber d = StorageReceipt.BlockNumber r
  /\ StorageReceipt.TransactionIndex d = StorageReceipt.TransactionIndex r
  /\ StorageReceipt.Rest d = StorageReceipt.Rest r
  /\ Forall2 same_persisted_log (StorageReceipt.Logs r) (StorageReceipt.Logs d).

(** A log as read back: persisted fields of the source log, derived
    fields taken from the owning receipt and the log's position. *)
Definition log_rehydrated (r : StorageReceipt.t) (j : nat) (l g : Log.t) : Prop :=
  same_persisted_log l g
  /\ Log.BlockHash g = StorageReceipt.BlockHash r
  /\ Log.BlockNumber g = BigInt_Uint64 (StorageReceipt.BlockNumber r)
  /\ Log.TxHash g = StorageReceipt.TxHash r
  /\ Log.TxIndex g = StorageReceipt.TransactionIndex r
  /\ Log.Index g = Z.of_nat j.

Definition receipt_rehydrated (r g : StorageReceipt.t) : Prop :=
  StorageReceipt.Bloom g = StorageReceipt.Bloom r
  /\ StorageReceipt.TxHash g = StorageReceipt.TxHash r
  /\ StorageReceipt.BlockHash g = StorageReceipt.BlockHash r
  /\ StorageReceipt.BlockNumber g = StorageReceipt.BlockNumber r
  /\ StorageReceipt.TransactionIndex g = StorageReceipt.TransactionIndex r
  /\ StorageReceipt.Rest g = StorageReceipt.Rest r
  /\ length (StorageReceipt.Logs g) = length (StorageReceipt.Logs r)
  /\ forall j l gl, StorageReceipt.Logs r !! j = Some l ->
                    StorageReceipt.Logs g !! j = Some gl ->
                    log_rehydrated r j l gl.

(** A receipt as read back, with the block number of every log stated
    against the receipt's own block number. *)
Definition receipt_read_back (r g : StorageReceipt.t) : Prop :=
  receipt_rehydrated r g
  /\ forall j gl, StorageReceipt.Logs g !! j = Some gl ->
                  Log.BlockHash gl = StorageReceipt.BlockHash r
                  /\ Log.BlockNumber gl = StorageReceipt.BlockNumber r
                  /\ Log.TxHash gl = StorageReceipt.TxHash r
                  /\ Log.TxIndex gl = StorageReceipt.TransactionIndex r
                  /\ Log.Index gl = Z.of_nat j.

(** The store a reader sees once the caller has committed the batch, if
    there is one. *)
Definition visible_after (st : Storage * option Batch) : Storage :=
  match st.2 with
  | None => st.1
  | Some b => (Batch_Commit b st.1).2
  end.

(** The bloom index is well formed: every key under the bloom code is
    that code followed by the eight bytes of a height, and its value
    decodes to a bloom list. *)
Definition bloom_entry_wf `{ReceiptCodec} (kv : list Z * list Z) : Prop :=
  head kv.1 = Some bloomHeightKey ->
  exists h, is_uint64 h /\ kv.1 = bloomHeightKey :: uint64Bytes h
            /\ is_ok (DecodeBlooms kv.2) = true.

Definition bloom_index_wf `{ReceiptCodec} (m : gmap (list Z) (list Z)) : Prop :=
  forall k v, m !! k = Some v -> bloom_entry_wf (k, v).

(** The bloom list stored under a height, if any. *)
Definition bloom_at `{ReceiptCodec} (s : Storage) (h : Z) : option (list bytes) :=
  match db s !! (bloomHeightKey :: uint64Bytes h) with
  | Some v => match DecodeBlooms v with
              | Ok bl => Some bl
              | Err _ => None
              end
  | None => None
  end.

(** What the scan makes of one visited pair. *)
Definition visits `{ReceiptCodec} (kv : list Z * list Z) (e : BloomsHeight.t) : Prop :=
  is_uint64 (BloomsHeight.Height e)
  /\ kv.1 = bloomHeightKey :: uint64Bytes (BloomsHeight.Height e)
  /\ DecodeBlooms kv.2 = Ok (BloomsHeight.Blooms e).

Definition key_lt (a b : list Z * list Z) : Prop :=
  bytes_ltb a.1 b.1 = true.

(** The entry a range answer holds for a height: the bloom list stored
    under it, if there is one. *)
Definition bloom_entry `{ReceiptCodec} (s : Storage) (h : Z)
  : option BloomsHeight.t :=
  (fun bl => BloomsHeight.mk bl h) <$> bloom_at s h.

(** The entries of the heights [start, ..., end] in ascending order. *)
Definition blooms_in_range `{ReceiptCodec} (s : Storage) (start end_ : Z)
  : list BloomsHeight.t :=
  omap (bloom_entry s) (seqZ start (end_ - start + 1)).

Definition height_lt (a b : BloomsHeight.t) : Prop :=
  BloomsHeight.Height a < BloomsHeight.Height b.

(** The key codes of the receipt index. *)
Definition receipt_code (c : Z) : Prop :=
  c = receiptTxIDToHeightKey \/ c = receiptHeightKey \/ c = bloomHeightKey.

(** A computation that, run without a batch, only adds writes under key
    codes satisfying [P], whether it succeeds or fails. *)
Definition writes_under (P : Z -> Prop) {A}
    (m : M (Storage * option (list (list Z * list Z))) A) : Prop :=
  forall s, exists s1 ws,
    (m (s, None)).2 = (s1, None)
    /\ db s1 = apply_batch ws (db s)
    /\ reads_ok s1 = reads_ok s
    /\ Forall (fun kv => P (hd 0 kv.1)) ws.

(* ===================================================================== *)
(** ** Sample codecs, stores and receipts *)
(* ===================================================================== *)

(** A small block codec: the height in eight bytes, then the payload. *)
Definition plain_block_codec : BlockCodec := {|
  ToBytes := fun b => Ok (uint64Bytes (Height b) ++ Payload b);
  Hash := fun b => Ok (255 :: uint64Bytes (Height b));
  NewBlockFromBytes := fun data =>
    match BigEndian_Uint64 data with
    | Some h => Ok (mkBlock h (drop 8 data))
    | None => Err ErrCodec
    end
|}.

(** A block codec whose hash covers the payload, so that two blocks of
    one height have different ids. *)
Definition payload_hash_codec : BlockCodec := {|
  ToBytes := fun b => Ok (uint64Bytes (Height b) ++ Payload b);
  Hash := fun b => Ok (255 :: uint64Bytes (Height b) ++ Payload b);
  NewBlockFromBytes := fun data =>
    match BigEndian_Uint64 data with
    | Some h => Ok (mkBlock h (drop 8 data))
    | None => Err ErrCodec
    end
|}.

Definition empty_storage : Storage := mkStorage ∅ true None.

(** The block index right after [NewBlocks(store, WithInitHeight(5))] on
    an empty store. *)
Definition blocks_init5 : Blocks.Blocks :=
  (Blocks.storeInitHeight 5 (Blocks.mkBlocks empty_storage ∅)).2.

(** A store whose engine accepts one more write and then faults. *)
Definition blocks_one_write_left : Blocks.Blocks :=
  Blocks.mkBlocks (mkStorage ∅ true (Some 1%nat)) ∅.

Definition block7 : Block := mkBlock 7 [1; 2; 3].

(** An empty store bootstrapped twice: first at height 5, then at 7. *)
Definition init5_then_init7 : result Blocks.Blocks * Storage :=
  Blocks.NewBlocks (Blocks.NewBlocks empty_storage [Blocks.WithInitHeight 5]).2
                   [Blocks.WithInitHeight 7].

(** Sample receipts.  The derived fields of the source logs hold
    arbitrary values, which are not persisted. *)
Definition log_a : Log.t := Log.mk [1] [[2]; [3]] [4] 99 [9] 9 [9] 9.
Definition log_b : Log.t := Log.mk [5] [] [6; 7] 98 [8] 8 [8] 8.

Definition receipt_a : StorageReceipt.t :=
  StorageReceipt.mk [10] [log_a; log_b] [170] [187] 5 0 [1].
Definition receipt_b : StorageReceipt.t :=
  StorageReceipt.mk [11] [log_b] [171] [187] 5 1 [1].
Definition receipt_z : StorageReceipt.t :=
  StorageReceipt.mk [12] [] [172] [188] 0 0 [1].

(** What decoding leaves in a log: the derived fields are zero. *)
Definition decoded_log (l : Log.t) : Log.t :=
  Log.mk (Log.Address l) (Log.Topics l) (Log.Data l) 0 [] 0 [] 0.

Definition decoded_receipt (r : StorageReceipt.t) : StorageReceipt.t :=
  StorageReceipt.mk (StorageReceipt.Bloom r)
    (map decoded_log (StorageReceipt.Logs r))
    (StorageReceipt.TxHash r) (StorageReceipt.BlockHash r)
    (StorageReceipt.BlockNumber r) (StorageReceipt.TransactionIndex r)
    (StorageReceipt.Rest r).

(** A table-driven codec for the sample receipts: a receipt list is
    encoded as a list header and its transaction hashes, and decoded by
    looking the hashes up among the samples; a bloom list is the header
    and the blooms, one byte each. *)
Definition fixture_codec : ReceiptCodec := {|
  EncodeReceipts := fun rs => Ok (192 :: flat_map StorageReceipt.TxHash rs);
  DecodeReceipts := fun b =>
    match b with
    | 192 :: hashes =>
        Ok (flat_map
              (fun x => map decoded_receipt
                          (filter (fun r => StorageReceipt.TxHash r = [x])
                                  [receipt_a; receipt_b; receipt_z]))
              hashes)
    | _ => Err ErrCodec
    end;
  EncodeBlooms := fun bl => Ok (192 :: concat bl);
  DecodeBlooms := fun b =>
    match b with
    | 192 :: bl => Ok (map (fun x => [x]) bl)
    | _ => Err ErrCodec
    end
|}.

(** The router of the test scenario: current endpoint test1.com, then
    [AddSpork(100, test2.com)] and [AddSpork(200, test3.com)]. *)
Definition scenario_client : result CrossSpork.CrossSporkClient :=
  CrossSpork.add_sporks [(100, "test2.com"%string); (200, "test3.com"%string)]
    (CrossSpork.NewCrossSporkClient "test1.com").

(** A transaction codec for samples: gas limit, value, then the data. *)
Definition fixture_tx_codec : Api.TxCodec := {|
  Api.MarshalBinary := fun tx =>
    Ok (Api.LegacyTx.Gas (Api.inner tx) :: Api.LegacyTx.Value (Api.inner tx)
        :: Api.LegacyTx.Data (Api.inner tx))
|}.

(** A store whose latest height is the largest [uint64]: receipts are
    stored at heights 3 and [MaxUint64], then the block of height
    [MaxUint64]. *)
Definition receipt_3 : StorageReceipt.t :=
  StorageReceipt.mk [14] [] [174] [190] 3 0 [1].
Definition receipt_max : StorageReceipt.t :=
  StorageReceipt.mk [13] [] [173] [189] MaxUint64 0 [1].

Definition store_at_max : Storage :=
  let s1 := (Receipts.Store (H := fixture_codec) [receipt_3]
                            (empty_storage, None)).2.1 in
  let s2 := (Receipts.Store (H := fixture_codec) [receipt_max] (s1, None)).2.1 in
  Blocks.store (Blocks.Store (H := plain_block_codec) 1 (mkBlock MaxUint64 [])
                             (Blocks.mkBlocks s2 ∅)).2.

(** The handle of [blocks_init5] after it has read (and so cached) its
    first height, then given [WithInitHeight(7)] again. *)
Definition live_handle_reinit : Blocks.Blocks :=
  (Blocks.storeInitHeight 7 (Blocks.FirstEVMHeight blocks_init5).2).2.

(** A receipt whose block number does not fit in 64 bits. *)
Definition receipt_wide : StorageReceipt.t :=
  StorageReceipt.mk [15] [log_a] [175] [191] (2 ^ 64 + 5) 0 [1].

(* ===================================================================== *)
(** * Properties *)
(* ===================================================================== *)

(** ** Monad and engine facts *)

Lemma bind_ok {S A B} (m : M S A) (k : A -> M S B) s a s' :
  m s = (Ok a, s') -> bind m k s = k a s'.
Proof. intros Hm. unfold bind. by rewrite Hm. Qed.

Lemma wrapping_ok {S A} msg (m : M S A) s a s' :
  m s = (Ok a, s') -> wrapping msg m s = (Ok a, s').
Proof. intros Hm. unfold wrapping. by rewrite Hm. Qed.

Lemma makePrefix_nil code : makePrefix code [] = [code].
Proof. reflexivity. Qed.

Lemma makePrefix_one code key : makePrefix code [key] = code :: key.
Proof. unfold makePrefix. simpl. by rewrite app_nil_r. Qed.

Lemma Storage_get_ok s code key :
  reads_ok s = true ->
  Storage_get s code key =
    match db s !! makePrefix code key with
    | Some v => Ok v
    | None => Err ErrNotFound
    end.
Proof. intros Hr. unfold Storage_get. by rewrite Hr. Qed.

(** ** Big-endian heights and the byte order of keys *)

Lemma be_bytes_length n z : length (be_bytes n z) = n.
Proof. induction n as [| n IH]; simpl; [done | by rewrite IH]. Qed.

Lemma pow256_pos n : 0 < 256 ^ Z.of_nat n.
Proof. apply Z.pow_pos_nonneg; lia. Qed.

Lemma pow256_succ n : 256 ^ Z.of_nat (S n) = 256 ^ Z.of_nat n * 256.
Proof. rewrite Nat2Z.inj_succ, Z.pow_succ_r by lia. lia. Qed.

(** The low [n+1] bytes split into byte [n] and the low [n] bytes. *)
Lemma mod_pow256_succ n z :
  z mod 256 ^ Z.of_nat (S n)
  = z mod 256 ^ Z.of_nat n + 256 ^ Z.of_nat n * ((z / 256 ^ Z.of_nat n) mod 256).
Proof.
  rewrite pow256_succ. pose proof (pow256_pos n).
  apply Z.rem_mul_r; lia.
Qed.

Lemma be_value_be_bytes n z acc :
  fold_left (fun a x => a * 256 + x) (be_bytes n z) acc
  = acc * 256 ^ Z.of_nat n + z mod 256 ^ Z.of_nat n.
Proof.
  revert acc. induction n as [| n IH]; intros acc.
  - simpl. rewrite Z.mod_1_r. lia.
  - cbn [be_bytes fold_left]. rewrite IH, mod_pow256_succ, pow256_succ. lia.
Qed.

Lemma BigEndian_Uint64_uint64Bytes h :
  is_uint64 h -> BigEndian_Uint64 (uint64Bytes h) = Some h.
Proof.
  intros [Hlo Hhi]. unfold BigEndian_Uint64, uint64Bytes.
  rewrite be_bytes_length. rewrite decide_True by lia.
  rewrite take_ge by (rewrite be_bytes_length; lia).
  unfold be_value. rewrite be_value_be_bytes.
  f_equal. rewrite Z.mul_0_l, Z.add_0_l. apply Z.mod_small.
  unfold MaxUint64 in Hhi. change (256 ^ Z.of_nat 8) with (2 ^ 64). lia.
Qed.

Lemma uint64Bytes_inj a b :
  is_uint64 a -> is_uint64 b -> uint64Bytes a = uint64Bytes b -> a = b.
Proof.
  intros Ha Hb Hab.
  apply BigEndian_Uint64_uint64Bytes in Ha, Hb. congruence.
Qed.

(** The low [n] bytes depend only on the value modulo [256^n]. *)
Lemma be_bytes_mod n m z :
  (n <= m)%nat -> be_bytes n (z mod 256 ^ Z.of_nat m) = be_bytes n z.
Proof.
  intros Hnm. induction n as [| n IH]; [done |].
  cbn [be_bytes]. rewrite IH by lia. f_equal.
  replace (Z.of_nat m) with (Z.of_nat n + Z.of_nat (m - n)) by lia.
  rewrite Z.pow_add_r by lia.
  pose proof (pow256_pos n). pose proof (pow256_pos (m - n)).
  rewrite Z.rem_mul_r by lia.
  rewrite Z.add_comm, Z.mul_comm, Z.div_add_l by lia.
  rewrite (Z.div_small (z mod _)) by (apply Z.mod_pos_bound; lia).
  rewrite Z.add_0_r.
  apply Z.mod_mod_divide.
  replace (m - n)%nat with (S (m - n - 1)) by lia.
  rewrite pow256_succ. by apply Z.divide_mul_r.
Qed.

(** On values that fit in [n] bytes, the byte order of the big-endian
    encodings is the numeric order. *)
Lemma be_bytes_compare n a b :
  0 <= a < 256 ^ Z.of_nat n ->
  0 <= b < 256 ^ Z.of_nat n ->
  bytes_compare (be_bytes n a) (be_bytes n b) = (a ?= b).
Proof.
  revert a b. induction n as [| n IH]; intros a b Ha Hb.
  - simpl in *. assert (a = 0) as -> by lia. assert (b = 0) as -> by lia. done.
  - cbn [be_bytes bytes_compare].
    pose proof (pow256_pos n) as Hp. rewrite pow256_succ in Ha, Hb.
    assert (Hqa : 0 <= a / 256 ^ Z.of_nat n < 256)
      by (split; [apply Z.div_pos; lia | apply Z.div_lt_upper_bound; lia]).
    assert (Hqb : 0 <= b / 256 ^ Z.of_nat n < 256)
      by (split; [apply Z.div_pos; lia | apply Z.div_lt_upper_bound; lia]).
    rewrite !Z.mod_small by lia.
    pose proof (Z.div_mod a (256 ^ Z.of_nat n) ltac:(lia)) as Eda.
    pose proof (Z.div_mod b (256 ^ Z.of_nat n) ltac:(lia)) as Edb.
    pose proof (Z.mod_pos_bound a (256 ^ Z.of_nat n) Hp) as Hra.
    pose proof (Z.mod_pos_bound b (256 ^ Z.of_nat n) Hp) as Hrb.
    destruct (Z.compare_spec (a / 256 ^ Z.of_nat n) (b / 256 ^ Z.of_nat n))
      as [Heq | Hlt | Hgt].
    + rewrite <- (be_bytes_mod n n a), <- (be_bytes_mod n n b) by lia.
      rewrite IH by lia.
      destruct (Z.compare_spec (a mod 256 ^ Z.of_nat n) (b mod 256 ^ Z.of_nat n));
        symmetry; [apply Z.compare_eq_iff | apply Z.compare_lt_iff
                  | apply Z.compare_gt_iff]; nia.
    + symmetry. apply Z.compare_lt_iff. nia.
    + symmetry. apply Z.compare_gt_iff. nia.
Qed.

Lemma uint64Bytes_compare a b :
  is_uint64 a -> is_uint64 b ->
  bytes_compare (uint64Bytes a) (uint64Bytes b) = (a ?= b).
Proof.
  unfold is_uint64, MaxUint64, uint64Bytes. intros Ha Hb.
  apply be_bytes_compare; change (256 ^ Z.of_nat 8) with (2 ^ 64); lia.
Qed.

Lemma bytes_compare_refl a : bytes_compare a a = Eq.
Proof. induction a as [| x a IH]; simpl; [done |]. by rewrite Z.compare_refl. Qed.

Lemma bytes_compare_eq a b : bytes_compare a b = Eq -> a = b.
Proof.
  revert b. induction a as [| x a IH]; intros [| y b] Hc; simpl in Hc;
    try done.
  destruct (Z.compare_spec x y); try done. subst. f_equal. by apply IH.
Qed.

Lemma bytes_compare_antisym a b :
  bytes_compare b a = CompOpp (bytes_compare a b).
Proof.
  revert b. induction a as [| x a IH]; intros [| y b]; simpl; try done.
  rewrite (Z.compare_antisym x y).
  destruct (x ?= y); simpl; [apply IH | done | done].
Qed.

Lemma bytes_compare_lt_trans a b c :
  bytes_compare a b = Lt -> bytes_compare b c = Lt -> bytes_compare a c = Lt.
Proof.
  revert b c. induction a as [| x a IH]; intros [| y b] [| z c] Hab Hbc;
    simpl in *; try done.
  destruct (Z.compare_spec x y), (Z.compare_spec y z); try done; subst.
  - rewrite Z.compare_refl. eauto.
  - by rewrite (proj2 (Z.compare_lt_iff _ _) H0).
  - by rewrite (proj2 (Z.compare_lt_iff _ _) H).
  - by rewrite (proj2 (Z.compare_lt_iff x z)) by lia.
Qed.

#[global] Instance key_le_total : Total key_le.
Proof.
  intros a b. unfold key_le, bytes_leb.
  rewrite (bytes_compare_antisym a.1 b.1).
  destruct (bytes_compare a.1 b.1); simpl; auto.
Qed.

#[global] Instance key_le_trans : Transitive key_le.
Proof.
  intros a b c. unfold key_le, bytes_leb.
  destruct (bytes_compare a.1 b.1) eqn:Hab; try done;
    destruct (bytes_compare b.1 c.1) eqn:Hbc; try done; intros _ _.
  - apply bytes_compare_eq in Hab, Hbc. rewrite Hab, Hbc.
    by rewrite bytes_compare_refl.
  - apply bytes_compare_eq in Hab. by rewrite Hab, Hbc.
  - apply bytes_compare_eq in Hbc. by rewrite <- Hbc, Hab.
  - by rewrite (bytes_compare_lt_trans _ _ _ Hab Hbc).
Qed.

(** ** The ordered iterator *)

Example iter_range_ex :
  iter_range (<[[22;0;3] := [7]]> (<[[22;0;1] := [5]]> (<[[21;0;2] := [9]]>
              (<[[22;0;2] := [6]]> (<[[22;1;0] := [8]]> ∅)))))
             [22;0;1] [22;0;3]
  = [([22;0;1], [5]); ([22;0;2], [6])].
Proof. vm_compute. reflexivity. Qed.

Lemma elem_of_iter_range m lower upper k v :
  (k, v) ∈ iter_range m lower upper <->
  m !! k = Some v /\ bytes_leb lower k = true /\ bytes_ltb k upper = true.
Proof.
  unfold iter_range. rewrite merge_sort_Permutation, list_elem_of_filter.
  rewrite elem_of_map_to_list. simpl. tauto.
Qed.

Lemma iter_range_NoDup m lower upper : NoDup (iter_range m lower upper).*1.
Proof.
  unfold iter_range. rewrite merge_sort_Permutation.
  eapply sublist_NoDup;
    [apply (NoDup_fst_map_to_list m) | apply fmap_sublist, sublist_filter].
Qed.

Lemma iter_range_sorted m lower upper :
  StronglySorted key_lt (iter_range m lower upper).
Proof.
  pose proof (iter_range_NoDup m lower upper) as Hnd.
  pose proof (StronglySorted_merge_sort key_le
    (filter (fun kv => bytes_leb lower kv.1 = true /\ bytes_ltb kv.1 upper = true)
            (map_to_list m))) as Hs.
  fold (iter_range m lower upper) in Hs.
  induction Hs as [| x l Hs IH Hall]; [constructor |].
  simpl in Hnd. apply NoDup_cons in Hnd as [Hx Hnd].
  constructor; [by apply IH |].
  apply Forall_forall. intros y Hy.
  eapply Forall_forall in Hall; [| exact Hy].
  unfold key_le, key_lt, bytes_leb, bytes_ltb in *.
  destruct (bytes_compare x.1 y.1) eqn:Hc; try done.
  apply bytes_compare_eq in Hc. destruct Hx. rewrite Hc.
  apply list_elem_of_fmap. eauto.
Qed.

(** Between two keys of one code lie only keys of that code. *)
Lemma between_same_code c a b k :
  bytes_leb (c :: a) k = true -> bytes_ltb k (c :: b) = true ->
  exists t, k = c :: t /\ bytes_leb a t = true /\ bytes_ltb t b = true.
Proof.
  destruct k as [| y t]; unfold bytes_leb, bytes_ltb; simpl; [done |].
  rewrite (Z.compare_antisym c y).
  destruct (Z.compare_spec c y) as [-> | Hlt | Hgt]; simpl; try done.
  intros Hle Hlt. by exists t.
Qed.

Lemma same_code_between c a b t :
  bytes_leb a t = true -> bytes_ltb t b = true ->
  bytes_leb (c :: a) (c :: t) = true /\ bytes_ltb (c :: t) (c :: b) = true.
Proof. unfold bytes_leb, bytes_ltb; simpl. by rewrite Z.compare_refl. Qed.

Lemma uint64Bytes_leb a b :
  is_uint64 a -> is_uint64 b ->
  bytes_leb (uint64Bytes a) (uint64Bytes b) = true <-> a <= b.
Proof.
  intros Ha Hb. unfold bytes_leb. rewrite uint64Bytes_compare by done.
  destruct (Z.compare_spec a b); split; intros; try done; lia.
Qed.

Lemma uint64Bytes_ltb a b :
  is_uint64 a -> is_uint64 b ->
  bytes_ltb (uint64Bytes a) (uint64Bytes b) = true <-> a < b.
Proof.
  intros Ha Hb. unfold bytes_ltb. rewrite uint64Bytes_compare by done.
  destruct (Z.compare_spec a b); split; intros; try done; lia.
Qed.

(** ** Block index: watermarks and the height cache *)


Lemma cache_coherent_empty s : cache_coherent (Blocks.mkBlocks s ∅).
Proof. intros k c Hk. simpl in Hk. by rewrite lookup_empty in Hk. Qed.

Lemma getHeight_stored b k h :
  reads_ok (Blocks.store b) = true ->
  cache_coherent b ->
  stored_height (Blocks.store b) k = Some h ->
  exists b', Blocks.getHeight k b = (Ok h, b')
             /\ Blocks.store b' = Blocks.store b
             /\ cache_coherent b'.
Proof.
  intros Hr Hc Hs. unfold Blocks.getHeight.
  destruct (decide (Blocks.cache_at b k <> 0)) as [Hnz | Hz].
  - exists b. split; [| done].
    unfold Blocks.cache_at in *.
    destruct (Blocks.heightCache b !! k) as [c |] eqn:Hk; simpl in *; [| done].
    specialize (Hc k c Hk Hnz). congruence.
  - rewrite Storage_get_ok, makePrefix_nil by done.
    unfold stored_height in Hs.
    destruct (db (Blocks.store b) !! [k]) as [v |] eqn:Hv; simpl in Hs; [| done].
    rewrite Hs. eexists. split; [done |]. split; [done |].
    intros k' c Hk' Hc'. simpl in *.
    destruct (decide (k = k')) as [<- | Hne].
    + rewrite lookup_insert_eq in Hk'. simplify_eq.
      unfold stored_height. by rewrite Hv.
    + rewrite lookup_insert_ne in Hk' by done. by apply Hc.
Qed.

Lemma getHeight_missing b k :
  reads_ok (Blocks.store b) = true ->
  cache_coherent b ->
  db (Blocks.store b) !! [k] = None ->
  Blocks.getHeight k b = (Err ErrNotInitialized, b).
Proof.
  intros Hr Hc Hs. unfold Blocks.getHeight.
  destruct (decide (Blocks.cache_at b k <> 0)) as [Hnz | Hz].
  - unfold Blocks.cache_at in *.
    destruct (Blocks.heightCache b !! k) as [c |] eqn:Hk; simpl in *; [| done].
    specialize (Hc k c Hk Hnz). unfold stored_height in Hc.
    by rewrite Hs in Hc.
  - by rewrite Storage_get_ok, makePrefix_nil, Hs by done.
Qed.


Lemma getBlock_height `{BlockCodec} b h :
  reads_ok (Blocks.store b) = true ->
  Blocks.getBlock blockHeightKey (uint64Bytes h) b = (block_at (Blocks.store b) h, b).
Proof.
  intros Hr. unfold Blocks.getBlock, bind, Blocks.store_get, lift, block_at.
  rewrite Storage_get_ok, makePrefix_one by done.
  by destruct (db (Blocks.store b) !! _).
Qed.

(** C1 (as amended): with both watermarks stored and the height cache
    of the handle coherent with them (every non-zero cached watermark is
    the stored one), [GetByHeight] answers [NotFound] for every height
    outside [first, latest], whatever bytes lie under that height; inside
    the range it answers what reading and decoding the bytes stored under
    the height gives, so it succeeds only inside the range, and there
    exactly when a decodable block is stored.  The store itself is left
    as it was, and the cache stays coherent. *)
Theorem GetByHeight_watermark_range `{BlockCodec} b h first last :
  reads_ok (Blocks.store b) = true ->
  cache_coherent b ->
  stored_height (Blocks.store b) firstEVMHeightKey = Some first ->
  stored_height (Blocks.store b) latestEVMHeightKey = Some last ->
  (h < first \/ last < h -> (Blocks.GetByHeight h b).1 = Err ErrNotFound)
  /\ (first <= h <= last ->
      (Blocks.GetByHeight h b).1 = block_at (Blocks.store b) h)
  /\ (is_ok (Blocks.GetByHeight h b).1 = true ->
      first <= h <= last /\ is_ok (block_at (Blocks.store b) h) = true)
  /\ Blocks.store (Blocks.GetByHeight h b).2 = Blocks.store b
  /\ cache_coherent (Blocks.GetByHeight h b).2.
Proof.
  intros Hr Hc Hf Hl.
  destruct (getHeight_stored b _ _ Hr Hc Hf) as (b1 & E1 & S1 & C1).
  rewrite <- S1 in Hr, Hl.
  destruct (getHeight_stored b1 _ _ Hr C1 Hl) as (b2 & E2 & S2 & C2).
  rewrite <- S2 in Hr.
  unfold Blocks.GetByHeight, bind, Blocks.FirstEVMHeight, Blocks.LatestEVMHeight.
  rewrite E1, E2.
  destruct (decide (h < first \/ h > last)) as [Hout | Hin].
  - unfold throw; simpl. repeat split; try done; try lia; try congruence.
  - rewrite getBlock_height by done. simpl. rewrite S2, S1.
    repeat split; try done; try lia; try congruence.
Qed.

(** The amended statement at the store of [blocks_init5], height 7. *)
Lemma GetByHeight_watermark_range_witness :
  (Blocks.GetByHeight (H := plain_block_codec) 7 blocks_init5).1 = Err ErrNotFound.
Proof.
  refine (proj1 (GetByHeight_watermark_range (H := plain_block_codec)
                   blocks_init5 7 5 5 _ _ _ _) _).
  - reflexivity.
  - apply cache_coherent_empty.
  - vm_compute. reflexivity.
  - vm_compute. reflexivity.
  - lia.
Defined.

(** C1 as stated fails: right after [WithInitHeight(5)] both watermarks
    are 5, height 5 is inside the range, and [GetByHeight(5)] answers
    [NotFound] because no block is stored under it. *)
Lemma GetByHeight_in_range_not_found :
  reads_ok (Blocks.store blocks_init5) = true
  /\ stored_height (Blocks.store blocks_init5) firstEVMHeightKey = Some 5
  /\ stored_height (Blocks.store blocks_init5) latestEVMHeightKey = Some 5
  /\ 5 <= 5 <= 5
  /\ (Blocks.GetByHeight (H := plain_block_codec) 5 blocks_init5).1 = Err ErrNotFound
  /\ ~ (forall (C : BlockCodec) b h first last,
          reads_ok (Blocks.store b) = true ->
          cache_coherent b ->
          stored_height (Blocks.store b) firstEVMHeightKey = Some first ->
          stored_height (Blocks.store b) latestEVMHeightKey = Some last ->
          (is_ok (Blocks.GetByHeight h b).1 = true <-> first <= h <= last)).
Proof.
  assert (E : (Blocks.GetByHeight (H := plain_block_codec) 5 blocks_init5).1
              = Err ErrNotFound) by (vm_compute; reflexivity).
  split_and!; [reflexivity | reflexivity | reflexivity | lia | lia | exact E |].
  intros claim.
  specialize (claim plain_block_codec blocks_init5 5 5 5 eq_refl
                (cache_coherent_empty _) eq_refl eq_refl).
  rewrite E in claim. simpl in claim.
  destruct claim as [_ claim]. discriminate claim. lia.
Qed.

(** ** Block index: [Store] *)

(** C2 (as amended): [Blocks.Store] issues its writes one after the other
    as separate top-level writes, in the order height->payload,
    id->height, EVM-height->host-height, latest watermark.  A call that
    fails while encoding or hashing the block leaves the index untouched;
    a call in which the engine accepts only the first [n < 4] writes
    returns the engine's error with exactly those [n] writes applied and
    the cache untouched; a call whose writes are all accepted applies all
    four and caches the new latest height. *)
Theorem Store_writes_in_sequence `{BlockCodec} b ch blk :
  (forall e, ToBytes blk = Err e -> Blocks.Store ch blk b = (Err e, b))
  /\ (forall val e, ToBytes blk = Ok val -> Hash blk = Err e ->
        Blocks.Store ch blk b = (Err e, b))
  /\ (forall val id, ToBytes blk = Ok val -> Hash blk = Ok id ->
        let ws := block_writes ch blk val id in
        let out := Blocks.Store ch blk b in
        let all_applied :=
          out.1 = Ok tt
          /\ db (Blocks.store out.2) = apply_batch ws (db (Blocks.store b))
          /\ Blocks.heightCache out.2
             = <[latestEVMHeightKey := Height blk]> (Blocks.heightCache b) in
        match writes_left (Blocks.store b) with
        | None => all_applied
        | Some n =>
            if decide (n < 4)%nat then
              out.1 = Err ErrEngine
              /\ db (Blocks.store out.2)
                 = apply_batch (take n ws) (db (Blocks.store b))
              /\ Blocks.heightCache out.2 = Blocks.heightCache b
            else all_applied
        end).
Proof.
  split; [| split].
  - intros e He. unfold Blocks.Store, bind, lift. by rewrite He.
  - intros val e Hv He. unfold Blocks.Store, bind, lift. by rewrite Hv, He.
  - intros val id Hv Hi. unfold Blocks.Store, bind, lift. rewrite Hv, Hi.
    destruct b as [[d r w] c].
    destruct w as [[| [| [| [| n]]]] |]; cbn; repeat split; reflexivity.
Qed.

(** The amended statement on a store with one write left. *)
Lemma Store_writes_in_sequence_witness :
  let out := Blocks.Store (H := plain_block_codec) 42 block7 blocks_one_write_left in
  out.1 = Err ErrEngine
  /\ db (Blocks.store out.2)
     = {[ blockHeightKey :: uint64Bytes 7 := uint64Bytes 7 ++ [1; 2; 3] ]}.
Proof.
  pose proof (Store_writes_in_sequence (H := plain_block_codec)
                blocks_one_write_left 42 block7) as (_ & _ & Hseq).
  specialize (Hseq (uint64Bytes 7 ++ [1; 2; 3]) (255 :: uint64Bytes 7)
                eq_refl eq_refl).
  destruct Hseq as (Hr & Hdb & _). split; [exact Hr |].
  rewrite Hdb. vm_compute. reflexivity.
Defined.

(** C2 as stated fails: on an engine that accepts one write and then
    faults, [Store] returns an error, yet the height->payload mapping of
    the block is visible afterwards while its id->height and
    EVM-height->host-height mappings are not. *)
Lemma Store_failed_leaves_partial_writes :
  let out := Blocks.Store (H := plain_block_codec) 42 block7 blocks_one_write_left in
  out.1 = Err ErrEngine
  /\ db (Blocks.store out.2) !! (blockHeightKey :: uint64Bytes 7)
     = Some (uint64Bytes 7 ++ [1; 2; 3])
  /\ db (Blocks.store out.2) !! (blockIDToHeightKey :: 255 :: uint64Bytes 7) = None
  /\ db (Blocks.store out.2) !! (evmHeightToCadenceHeightKey :: uint64Bytes 7) = None
  /\ ~ (forall (C : BlockCodec) b ch blk,
          is_ok (Blocks.Store ch blk b).1 = false ->
          db (Blocks.store (Blocks.Store ch blk b).2) = db (Blocks.store b)).
Proof.
  split_and!; [reflexivity | reflexivity | reflexivity | reflexivity |].
  intros claim.
  specialize (claim plain_block_codec blocks_one_write_left 42 block7 eq_refl).
  apply (f_equal (fun m => m !! (blockHeightKey :: uint64Bytes 7))) in claim.
  vm_compute in claim. discriminate claim.
Qed.

(** ** Block index: [storeInitHeight] *)

(** On a readable store whose writes are accepted, [storeInitHeight]
    never reports an existing watermark: it returns no error and sets
    both watermarks, whether or not they were set before. *)
Lemma storeInitHeight_always_writes b h :
  reads_ok (Blocks.store b) = true ->
  writes_left (Blocks.store b) = None ->
  Blocks.storeInitHeight h b
  = (Ok tt,
     Blocks.mkBlocks
       (mkStorage (<[[latestEVMHeightKey] := uint64Bytes h]>
                     (<[[firstEVMHeightKey] := uint64Bytes h]>
                        (db (Blocks.store b)))) true None)
       (Blocks.heightCache b)).
Proof.
  destruct b as [[d r w] c]. simpl. intros -> ->.
  unfold Blocks.storeInitHeight, Storage_get. simpl.
  destruct (d !! makePrefix firstEVMHeightKey []);
    destruct (d !! makePrefix latestEVMHeightKey []); reflexivity.
Qed.

(** The only errors [storeInitHeight] raises by itself come from a read
    fault of the engine, not from a watermark being present. *)
Lemma storeInitHeight_fails_on_read_fault b h :
  reads_ok (Blocks.store b) = false ->
  Blocks.storeInitHeight h b
  = (Err (ErrMsg "existing first height can not be overwritten"), b).
Proof.
  intros Hr. unfold Blocks.storeInitHeight, Storage_get. by rewrite Hr.
Qed.

(** C3: on an empty store [WithInitHeight(5)] sets first = latest = 5;
    a second [WithInitHeight(7)] on that store returns no error and
    overwrites both watermarks with 7, where the claim (and the option's
    own documentation) has it fail and keep 5. *)
Theorem storeInitHeight_twice_overwrites :
  let first_run := Blocks.NewBlocks empty_storage [Blocks.WithInitHeight 5] in
  is_ok first_run.1 = true
  /\ stored_height first_run.2 firstEVMHeightKey = Some 5
  /\ stored_height first_run.2 latestEVMHeightKey = Some 5
  /\ is_ok init5_then_init7.1 = true
  /\ stored_height init5_then_init7.2 firstEVMHeightKey = Some 7
  /\ stored_height init5_then_init7.2 latestEVMHeightKey = Some 7.
Proof. vm_compute. repeat split; reflexivity. Qed.

(** ** Receipt index: the writes of [Store] *)

Lemma apply_batch_app a b m :
  apply_batch (a ++ b) m = apply_batch b (apply_batch a m).
Proof. unfold apply_batch. apply fold_left_app. Qed.

Lemma put_all_nil st : put_all [] st = st.
Proof.
  destruct st as [[d r w] [b |]]; unfold put_all; simpl;
    [by rewrite app_nil_r | done].
Qed.

Lemma put_all_app a b st : put_all (a ++ b) st = put_all b (put_all a st).
Proof.
  destruct st as [s [bt |]]; unfold put_all; simpl.
  - by rewrite app_assoc.
  - by rewrite apply_batch_app.
Qed.

Lemma accepts_writes_put_all ws st :
  accepts_writes st -> accepts_writes (put_all ws st).
Proof.
  destruct st as [s [bt |]]; unfold accepts_writes, put_all; simpl; auto.
  discriminate.
Qed.

Lemma Storage_set_accepted code k v st :
  accepts_writes st ->
  Storage_set code k v st = (Ok tt, put_all [(makePrefix code [k], v)] st).
Proof.
  destruct st as [[d r w] [bt |]]; unfold accepts_writes, Storage_set, put_all;
    simpl; [done |].
  intros Hw. rewrite (Hw eq_refl). reflexivity.
Qed.

(** Under accepted writes the loop of [Store] is decided by the height
    check alone, and when that passes it has issued the per-transaction
    writes and gathered the blooms in order. *)
Lemma store_loop_accepted `{ReceiptCodec} rs height blooms st :
  accepts_writes st ->
  match height_check (map receipt_height rs) height with
  | Some h' =>
      Receipts.store_loop rs height blooms st
      = (Ok (h', blooms ++ map StorageReceipt.Bloom rs), put_all (tx_writes rs) st)
  | None =>
      (Receipts.store_loop rs height blooms st).1
      = Err (ErrMsg "can't store receipts for multiple heights")
  end.
Proof.
  revert height blooms st.
  induction rs as [| r rs IH]; intros height blooms st Hst; simpl.
  - by rewrite app_nil_r, put_all_nil.
  - fold (receipt_height r).
    destruct (decide (height <> 0 /\ receipt_height r <> height)) as [Hbad | Hgood];
      [done |].
    set (w := (makePrefix receiptTxIDToHeightKey [StorageReceipt.TxHash r],
               uint64Bytes (receipt_height r))).
    rewrite (bind_ok _ _ _ _ _
               (wrapping_ok _ _ _ _ _ (Storage_set_accepted _ _ _ _ Hst))).
    fold w.
    specialize (IH (receipt_height r) (blooms ++ [StorageReceipt.Bloom r])
                  (put_all [w] st) (accepts_writes_put_all [w] st Hst)).
    destruct (height_check (map receipt_height rs) (receipt_height r)).
    + rewrite IH. rewrite <- app_assoc. simpl.
      by rewrite <- put_all_app.
    + exact IH.
Qed.

(** Once a non-zero height is held, the check passes only on receipts
    of that height. *)
Lemma height_check_nonzero hs height h' :
  height <> 0 ->
  height_check hs height = Some h' ->
  h' = height /\ Forall (fun h => h = height) hs.
Proof.
  revert height. induction hs as [| h hs IH]; intros height Hnz Hc; simpl in Hc.
  - split; [congruence | constructor].
  - destruct (decide (height <> 0 /\ h <> height)) as [| Hgood]; [done |].
    assert (h = height) as -> by (destruct (decide (h = height)); tauto).
    destruct (IH _ Hnz Hc) as [-> Hall]. split; [done |]. by constructor.
Qed.

(** Receipts that share one height pass the check from the zero
    accumulator and from that height. *)
Lemma height_check_uniform hs height h' :
  Forall (fun h => h = h') hs ->
  height = 0 \/ height = h' ->
  height_check hs height = Some (match hs with [] => height | _ => h' end).
Proof.
  intros Hall. revert height.
  induction Hall as [| h hs -> Hall IH]; intros height Hh; simpl; [done |].
  destruct (decide (height <> 0 /\ h' <> height)) as [[? ?] | _];
    [destruct Hh; congruence |].
  rewrite IH by auto. by destruct hs.
Qed.

(** From the zero accumulator the check passes exactly on some receipts
    of height zero followed by receipts that share one height. *)
Lemma height_check_passes hs h' :
  height_check hs 0 = Some h' <->
  exists k rest, hs = replicate k 0 ++ rest
                 /\ Forall (fun h => h = h') rest
                 /\ (rest = [] -> h' = 0).
Proof.
  split.
  - revert h'. induction hs as [| h hs IH]; intros h' Hc; simpl in Hc.
    + exists 0%nat, []. simplify_eq. by repeat split.
    + destruct (decide (0 <> 0 /\ h <> 0)) as [[? _] | _]; [done |].
      destruct (decide (h = 0)) as [-> | Hnz].
      * destruct (IH _ Hc) as (k & rest & -> & Hall & Hz).
        by exists (S k), rest.
      * destruct (height_check_nonzero _ _ _ Hnz Hc) as [-> Hall].
        exists 0%nat, (h :: hs). repeat split; [by constructor | done].
  - intros (k & rest & -> & Hall & Hz).
    induction k as [| k IH]; simpl.
    + rewrite (height_check_uniform _ 0 h') by auto.
      destruct rest; [by rewrite Hz | done].
    + destruct (decide (0 <> 0 /\ 0 <> 0)) as [[? _] | _]; [done |]. exact IH.
Qed.

(** With accepted writes, a passing height check and working encoders,
    [Store] returns no error and has issued, in order, the
    per-transaction writes, the receipt list and the bloom list, the
    last two under the height the loop ended with. *)
Lemma Store_accepted `{ReceiptCodec} rs st h' rb bb :
  accepts_writes st ->
  height_check (map receipt_height rs) 0 = Some h' ->
  EncodeReceipts rs = Ok rb ->
  EncodeBlooms (map StorageReceipt.Bloom rs) = Ok bb ->
  Receipts.Store rs st
  = (Ok tt,
     put_all (tx_writes rs
              ++ [ (makePrefix receiptHeightKey [uint64Bytes h'], rb);
                   (makePrefix bloomHeightKey [uint64Bytes h'], bb) ]) st).
Proof.
  intros Hst Hc Hrb Hbb. unfold Receipts.Store.
  pose proof (store_loop_accepted rs 0 [] st Hst) as Hloop.
  rewrite Hc in Hloop. rewrite (bind_ok _ _ _ _ _ Hloop). simpl.
  rewrite (bind_ok (lift (EncodeReceipts rs)) _ _ rb (put_all (tx_writes rs) st))
    by (unfold lift; by rewrite Hrb).
  pose proof (accepts_writes_put_all (tx_writes rs) st Hst) as Hst1.
  rewrite (bind_ok _ _ _ _ _
             (wrapping_ok _ _ _ _ _ (Storage_set_accepted _ _ _ _ Hst1))).
  pose proof (accepts_writes_put_all
                [(makePrefix receiptHeightKey [uint64Bytes h'], rb)] _ Hst1) as Hst2.
  rewrite (bind_ok _ _ _ bb _)
    by (unfold wrapping, lift; by rewrite Hbb).
  rewrite (wrapping_ok _ _ _ _ _ (Storage_set_accepted _ _ _ _ Hst2)).
  by rewrite <- !put_all_app.
Qed.

(** C9: with accepted writes and encoders that accept the empty lists,
    [Store] of no receipts returns no error; it issues no
    per-transaction write and exactly two writes, the encoded empty
    receipt list and the encoded empty bloom list, both under height 0. *)
Theorem Store_empty_receipts `{ReceiptCodec} st rb bb :
  accepts_writes st ->
  EncodeReceipts [] = Ok rb ->
  EncodeBlooms [] = Ok bb ->
  tx_writes [] = []
  /\ Receipts.Store [] st
     = (Ok tt,
        put_all [ ([receiptHeightKey; 0; 0; 0; 0; 0; 0; 0; 0], rb);
                  ([bloomHeightKey; 0; 0; 0; 0; 0; 0; 0; 0], bb) ] st).
Proof.
  intros Hst Hrb Hbb. split; [done |].
  by rewrite (Store_accepted [] st 0 rb bb).
Qed.

Lemma Store_empty_receipts_witness :
  Receipts.Store (H := fixture_codec) [] (empty_storage, None)
  = (Ok tt,
     (mkStorage
        (<[[bloomHeightKey; 0; 0; 0; 0; 0; 0; 0; 0] := [192]]>
           (<[[receiptHeightKey; 0; 0; 0; 0; 0; 0; 0; 0] := [192]]> ∅))
        true None,
      None)).
Proof.
  refine (proj2 (Store_empty_receipts (H := fixture_codec)
                   (empty_storage, None) [192] [192] _ _ _)).
  - intros _. reflexivity.
  - reflexivity.
  - reflexivity.
Defined.

(** C4: a list of two receipts of heights 0 and 5 passes the height
    check: [Store] returns no error and files both receipts under
    height 5, where the claim has it fail. *)
Theorem Store_accepts_mixed_heights_after_zero :
  let out := Receipts.Store (H := fixture_codec) [receipt_z; receipt_a]
                            (empty_storage, None) in
  receipt_height receipt_z = 0
  /\ receipt_height receipt_a = 5
  /\ out.1 = Ok tt
  /\ db out.2.1 !! (receiptHeightKey :: uint64Bytes 5) = Some [192; 172; 170]
  /\ db out.2.1 !! (receiptHeightKey :: uint64Bytes 0) = None
  /\ db out.2.1 !! (receiptTxIDToHeightKey :: [172]) = Some (uint64Bytes 0)
  /\ db out.2.1 !! (receiptTxIDToHeightKey :: [170]) = Some (uint64Bytes 5).
Proof. vm_compute. repeat split; reflexivity. Qed.

(** ** Receipt index: reading a height back *)

Lemma populate_rehydrates r d :
  same_persisted r d -> receipt_rehydrated r (Receipts.populate d).
Proof.
  intros (Hb & Ht & Hbh & Hbn & Hti & Hr & Hlogs).
  unfold receipt_rehydrated, Receipts.populate; simpl.
  split_and!; try done.
  - rewrite length_imap. symmetry. by eapply Forall2_length.
  - intros j l gl Hl Hg.
    destruct (Forall2_lookup_l _ _ _ _ _ Hlogs Hl) as (dl & Hdl & Ha & Htp & Hd).
    rewrite list_lookup_imap, Hdl in Hg. simpl in Hg. simplify_eq.
    unfold log_rehydrated, same_persisted_log, Receipts.populate_log; simpl.
    split_and!; congruence.
Qed.

Lemma visible_after_last_two ws k1 v1 k2 v2 st :
  writes_left st.1 = None ->
  k1 <> k2 ->
  db (visible_after (put_all (ws ++ [(k1, v1); (k2, v2)]) st)) !! k1 = Some v1
  /\ reads_ok (visible_after (put_all (ws ++ [(k1, v1); (k2, v2)]) st))
     = reads_ok st.1.
Proof.
  destruct st as [[d r w] [b |]]; simpl; intros -> Hne;
    unfold visible_after, put_all, Batch_Commit; simpl;
    rewrite ?app_assoc, apply_batch_app; simpl;
    by rewrite lookup_insert_ne, lookup_insert_eq.
Qed.

(** Receipts whose block numbers share the low 64 bits [h] read back
    rehydrated; the block number of a log is the [Uint64()] of the
    receipt's. *)
Lemma Store_then_GetByBlockHeight `{ReceiptCodec} st rs h rb bb decoded :
  writes_left st.1 = None ->
  reads_ok st.1 = true ->
  Forall (fun r => receipt_height r = h) rs ->
  (rs = [] -> h = 0) ->
  EncodeReceipts rs = Ok rb ->
  EncodeBlooms (map StorageReceipt.Bloom rs) = Ok bb ->
  DecodeReceipts rb = Ok decoded ->
  Forall2 same_persisted rs decoded ->
  let out := Receipts.Store rs st in
  out.1 = Ok tt
  /\ exists got,
       (Receipts.GetByBlockHeight h (visible_after out.2)).1 = Ok got
       /\ Forall2 receipt_rehydrated rs got.
Proof.
  intros Hw Hr Hall Hnil Hrb Hbb Hdec Hsame out.
  assert (Hst : accepts_writes st) by (intros _; exact Hw).
  assert (Hc : height_check (map receipt_height rs) 0 = Some h).
  { rewrite (height_check_uniform _ 0 h).
    - destruct rs; simpl; [by rewrite Hnil | done].
    - by apply Forall_fmap.
    - by left. }
  subst out. rewrite (Store_accepted rs st h rb bb Hst Hc Hrb Hbb). simpl.
  split; [done |].
  exists (map Receipts.populate decoded). split.
  - unfold Receipts.GetByBlockHeight, Receipts.getByBlockHeight, bind,
      Receipts.store_get, wrapping, lift, ret, Storage_get.
    edestruct (visible_after_last_two (tx_writes rs)) as [Hlook Hreads];
      [exact Hw | | rewrite Hreads, Hr, Hlook, Hdec; reflexivity].
    rewrite !makePrefix_one. unfold receiptHeightKey, bloomHeightKey. congruence.
  - apply Forall2_fmap_r.
    eapply Forall2_impl; [exact Hsame |]. apply populate_rehydrates.
Qed.

Lemma BigInt_Uint64_small x : is_uint64 x -> BigInt_Uint64 x = x.
Proof.
  unfold is_uint64, MaxUint64, BigInt_Uint64. intros Hx.
  rewrite Z.abs_eq by lia. apply Z.mod_small. lia.
Qed.

(** With a block number that fits in 64 bits, a rehydrated receipt's
    logs carry that very number. *)
Lemma rehydrated_read_back r g :
  is_uint64 (StorageReceipt.BlockNumber r) ->
  receipt_rehydrated r g -> receipt_read_back r g.
Proof.
  intros Hu Hre. split; [exact Hre |].
  destruct Hre as (_ & _ & _ & _ & _ & _ & Hlen & Hlogs).
  intros j gl Hg.
  destruct (StorageReceipt.Logs r !! j) as [l |] eqn:Hl.
  - destruct (Hlogs j l gl Hl Hg) as (_ & Hbh & Hbn & Hth & Hti & Hix).
    rewrite BigInt_Uint64_small in Hbn by done. by split_and!.
  - apply lookup_ge_None in Hl. apply lookup_lt_Some in Hg. lia.
Qed.

Lemma rehydrated_all_read_back rs got h :
  is_uint64 h ->
  Forall (fun r => StorageReceipt.BlockNumber r = h) rs ->
  Forall2 receipt_rehydrated rs got ->
  Forall2 receipt_read_back rs got.
Proof.
  intros Hu Hall Hre. revert Hall.
  induction Hre as [| r g rs' got' Hrg Hre IH]; intros Hall; [constructor |].
  apply Forall_cons in Hall as [Hbn Hall].
  constructor; [| by apply IH].
  apply rehydrated_read_back; [by rewrite Hbn | done].
Qed.

(** A block number beyond 64 bits reaches the log as its low 64 bits
    only. *)
Lemma populate_log_keeps_low_64_bits :
  Log.BlockNumber (Receipts.populate_log receipt_wide 0 log_a) = 5
  /\ StorageReceipt.BlockNumber receipt_wide = 2 ^ 64 + 5.
Proof. split; reflexivity. Qed.

(** C7: when receipts of block number [h], a [uint64] height, are stored
    (directly, or on a batch that the caller then commits) and the
    receipt encoding round-trips on what is persisted,
    [GetByBlockHeight(h)] returns as many receipts, in the stored order,
    each with the receipt fields of its source and each of its logs
    carrying the source log's address, topics and data, the block hash
    and block number and the transaction hash and index of the owning
    receipt, and its position as index. *)
Theorem GetByBlockHeight_after_Store `{ReceiptCodec} st rs h rb bb decoded :
  writes_left st.1 = None ->
  reads_ok st.1 = true ->
  is_uint64 h ->
  Forall (fun r => StorageReceipt.BlockNumber r = h) rs ->
  (rs = [] -> h = 0) ->
  EncodeReceipts rs = Ok rb ->
  EncodeBlooms (map StorageReceipt.Bloom rs) = Ok bb ->
  DecodeReceipts rb = Ok decoded ->
  Forall2 same_persisted rs decoded ->
  let out := Receipts.Store rs st in
  out.1 = Ok tt
  /\ exists got,
       (Receipts.GetByBlockHeight h (visible_after out.2)).1 = Ok got
       /\ Forall2 receipt_read_back rs got.
Proof.
  intros Hw Hr Hu Hall Hnil Hrb Hbb Hdec Hsame out.
  assert (Hheights : Forall (fun r => receipt_height r = h) rs).
  { eapply Forall_impl; [exact Hall |]. intros r Hr'.
    unfold receipt_height. rewrite Hr'. by apply BigInt_Uint64_small. }
  destruct (Store_then_GetByBlockHeight st rs h rb bb decoded
              Hw Hr Hheights Hnil Hrb Hbb Hdec Hsame) as (Hok & got & Hget & Hre).
  split; [exact Hok |]. exists got. split; [exact Hget |].
  by apply (rehydrated_all_read_back rs got h).
Qed.

Lemma fixture_same_persisted r : same_persisted r (decoded_receipt r).
Proof.
  unfold same_persisted, decoded_receipt; simpl. split_and!; try done.
  apply Forall2_fmap_r, Forall_Forall2_diag, Forall_forall.
  intros l _. by unfold same_persisted_log.
Qed.

(** The statement at two sample receipts of height 5 written through a
    batch. *)
Lemma GetByBlockHeight_after_Store_witness :
  exists got,
    (Receipts.GetByBlockHeight (H := fixture_codec) 5
       (visible_after
          (Receipts.Store (H := fixture_codec) [receipt_a; receipt_b]
                          (empty_storage, Some [])).2)).1 = Ok got
    /\ Forall2 receipt_read_back [receipt_a; receipt_b] got.
Proof.
  refine (proj2 (GetByBlockHeight_after_Store (H := fixture_codec)
                   (empty_storage, Some []) [receipt_a; receipt_b] 5
                   [192; 170; 171] [192; 10; 11]
                   [decoded_receipt receipt_a; decoded_receipt receipt_b]
                   _ _ _ _ _ _ _ _ _)).
  - reflexivity.
  - reflexivity.
  - unfold is_uint64, MaxUint64. lia.
  - repeat constructor.
  - discriminate.
  - reflexivity.
  - reflexivity.
  - vm_compute. reflexivity.
  - repeat constructor; apply fixture_same_persisted.
Defined.

(** ** Receipt index: [BloomsForBlockRange] *)

Lemma getLast_stored s last :
  reads_ok s = true ->
  stored_height s latestEVMHeightKey = Some last ->
  Receipts.getLast s = (Ok last, s).
Proof.
  intros Hr Hs. unfold Receipts.getLast, bind, wrapping, Receipts.store_get.
  rewrite Storage_get_ok, makePrefix_nil by done.
  unfold stored_height in Hs.
  destruct (db s !! [latestEVMHeightKey]) as [v |]; simpl in Hs; [| done].
  by rewrite Hs.
Qed.

(** X14: on a readable store with a latest height, a range that is
    reversed or reaches past the latest height is rejected with the
    block-range error, and the store is untouched. *)
Lemma BloomsForBlockRange_rejects `{ReceiptCodec} s start end_ last :
  reads_ok s = true ->
  stored_height s latestEVMHeightKey = Some last ->
  start > end_ \/ start > last \/ end_ > last ->
  exists msg,
    Receipts.BloomsForBlockRange start end_ s
    = (Err (ErrWrap msg ErrInvalidBlockRange), s).
Proof.
  intros Hr Hs Hbad. unfold Receipts.BloomsForBlockRange.
  destruct (decide (start > end_)); [by eexists |].
  rewrite (bind_ok _ _ _ _ _ (wrapping_ok _ _ _ _ _ (getLast_stored _ _ Hr Hs))).
  destruct (decide (start > last)); [by eexists |].
  destruct (decide (end_ > last)); [by eexists |].
  lia.
Qed.

Lemma scan_blooms_visits `{ReceiptCodec} kvs acc :
  Forall (fun kv => exists h, is_uint64 h /\ kv.1 = bloomHeightKey :: uint64Bytes h
                              /\ is_ok (DecodeBlooms kv.2) = true) kvs ->
  exists out, Receipts.scan_blooms kvs acc = Ok (acc ++ out)
              /\ Forall2 visits kvs out.
Proof.
  intros Hall. revert acc.
  induction Hall as [| [k v] kvs (h & Hh & Hk & Hdec) Hall IH]; intros acc.
  - exists []. simpl. by rewrite app_nil_r.
  - simpl in *. subst k. destruct (DecodeBlooms v) as [bl |] eqn:Hv; [| done].
    unfold stripPrefix. cbn [drop]. rewrite drop_0.
    rewrite BigEndian_Uint64_uint64Bytes by done.
    destruct (IH (acc ++ [BloomsHeight.mk bl h])) as (out & -> & Hout).
    exists (BloomsHeight.mk bl h :: out). rewrite <- app_assoc. split; [done |].
    constructor; [| done]. by unfold visits.
Qed.

Lemma visits_sorted `{ReceiptCodec} kvs out :
  Forall2 visits kvs out ->
  StronglySorted key_lt kvs ->
  StronglySorted Z.lt (BloomsHeight.Height <$> out).
Proof.
  induction 1 as [| kv e kvs out Hv Hrest IH]; intros Hs; simpl;
    [constructor |].
  apply StronglySorted_inv in Hs as [Hs Hall].
  constructor; [by apply IH |].
  apply Forall_fmap, Forall_forall. intros e' He'.
  apply list_elem_of_lookup in He' as [i Hi].
  destruct (Forall2_lookup_r _ _ _ _ _ Hrest Hi) as (kv' & Hkv' & Hv').
  eapply Forall_forall in Hall; [| by eapply list_elem_of_lookup_2].
  destruct Hv as (Hu & Hk & _), Hv' as (Hu' & Hk' & _).
  unfold key_lt in Hall. rewrite Hk, Hk' in Hall.
  unfold bytes_ltb in Hall. simpl in Hall.
  by apply (uint64Bytes_ltb _ _ Hu Hu').
Qed.

(** For [start <= end <= latest] with [end] below the largest [uint64],
    on a readable store with a well-formed bloom index, the range query
    returns, in strictly ascending height order, exactly the bloom lists
    stored under the heights of [start, end]: one per stored height. *)
Lemma BloomsForBlockRange_in_range `{ReceiptCodec} s start end_ last :
  reads_ok s = true ->
  stored_height s latestEVMHeightKey = Some last ->
  bloom_index_wf (db s) ->
  0 <= start <= end_ ->
  end_ <= last ->
  end_ < MaxUint64 ->
  exists out,
    Receipts.BloomsForBlockRange start end_ s = (Ok out, s)
    /\ StronglySorted Z.lt (BloomsHeight.Height <$> out)
    /\ forall h bl, BloomsHeight.mk bl h ∈ out <->
                    start <= h <= end_ /\ bloom_at s h = Some bl.
Proof.
  intros Hr Hs Hwf Hse Hel Hmax. unfold Receipts.BloomsForBlockRange.
  rewrite decide_False by lia.
  rewrite (bind_ok _ _ _ _ _ (wrapping_ok _ _ _ _ _ (getLast_stored _ _ Hr Hs))).
  rewrite !decide_False by lia.
  unfold bind, lift, Storage_NewIter. rewrite Hr, !makePrefix_one.
  assert (Hw : wrap64 (end_ + 1) = end_ + 1).
  { unfold wrap64, MaxUint64 in *. apply Z.mod_small. lia. }
  rewrite Hw.
  assert (Hus : is_uint64 start) by (unfold is_uint64; lia).
  assert (Hue : is_uint64 (end_ + 1)) by (unfold is_uint64; lia).
  set (kvs := iter_range (db s) (bloomHeightKey :: uint64Bytes start)
                (bloomHeightKey :: uint64Bytes (end_ + 1))).
  assert (Hin : forall k v, (k, v) ∈ kvs ->
            db s !! k = Some v /\ exists h, is_uint64 h
              /\ k = bloomHeightKey :: uint64Bytes h
              /\ is_ok (DecodeBlooms v) = true /\ start <= h <= end_).
  { intros k v Hkv. apply elem_of_iter_range in Hkv as (Hlook & Hlo & Hhi).
    split; [done |].
    destruct (between_same_code _ _ _ _ Hlo Hhi) as (t & -> & Hlo' & Hhi').
    destruct (Hwf _ _ Hlook eq_refl) as (h & Hu & Hk & Hdec).
    simpl in Hk, Hdec. exists h. split_and!; try done; simplify_eq.
    - by apply (uint64Bytes_leb start h).
    - apply (uint64Bytes_ltb h (end_ + 1)) in Hhi'; [lia | done | done]. }
  destruct (scan_blooms_visits kvs []) as (out & Hscan & Hvis).
  { apply Forall_forall. intros [k v] Hkv.
    destruct (Hin k v Hkv) as (_ & h & ? & ? & ? & _). by exists h. }
  exists out. rewrite Hscan. split_and!; [done | |].
  - eapply visits_sorted; [exact Hvis |]. apply iter_range_sorted.
  - intros h bl. unfold bloom_at. split.
    + intros He. apply list_elem_of_lookup in He as [i Hi].
      destruct (Forall2_lookup_r _ _ _ _ _ Hvis Hi) as ([k v] & Hkv & Hu & Hk & Hd).
      simpl in *. apply list_elem_of_lookup_2 in Hkv.
      destruct (Hin k v Hkv) as (Hlook & h' & Hu' & Hk' & _ & Hrange).
      assert (h' = h) as -> by (apply uint64Bytes_inj; congruence).
      split; [done |]. by rewrite <- Hk, Hlook, Hd.
    + intros [Hrange Hat].
      destruct (db s !! (bloomHeightKey :: uint64Bytes h)) as [v |] eqn:Hlook;
        [| done].
      destruct (DecodeBlooms v) as [bl' |] eqn:Hd; [| done]. simplify_eq.
      assert (Hu : is_uint64 h) by (unfold is_uint64; lia).
      assert (Hkv : (bloomHeightKey :: uint64Bytes h, v) ∈ kvs).
      { apply elem_of_iter_range. split; [done |].
        apply same_code_between.
        - apply uint64Bytes_leb; [done | done | lia].
        - apply uint64Bytes_ltb; [done | done | lia]. }
      apply list_elem_of_lookup in Hkv as [i Hi].
      destruct (Forall2_lookup_l _ _ _ _ _ Hvis Hi) as ([bl' h'] & He & Hu' & Hk' & Hd').
      simpl in *. apply list_elem_of_lookup_2 in He.
      assert (h' = h) as -> by (apply uint64Bytes_inj; congruence).
      congruence.
Qed.

(** Writes keep the bloom index well formed as long as those under the
    bloom code are. *)
Lemma apply_batch_bloom_index_wf `{ReceiptCodec} ws m :
  bloom_index_wf m ->
  Forall bloom_entry_wf ws ->
  bloom_index_wf (apply_batch ws m).
Proof.
  intros Hm Hws. revert m Hm.
  induction Hws as [| [k v] ws Hkv Hws IH]; intros m Hm; simpl; [done |].
  apply IH. intros k' v' Hlook. simpl in Hlook.
  destruct (decide (k = k')) as [<- | Hne].
  - rewrite lookup_insert_eq in Hlook. injection Hlook as <-. exact Hkv.
  - rewrite lookup_insert_ne in Hlook by done. by apply Hm.
Qed.

Lemma BigInt_Uint64_range x : is_uint64 (BigInt_Uint64 x).
Proof.
  unfold is_uint64, BigInt_Uint64, MaxUint64.
  pose proof (Z.mod_pos_bound (Z.abs x) (2 ^ 64) ltac:(lia)). lia.
Qed.

Lemma height_check_range hs height h' :
  is_uint64 height -> Forall is_uint64 hs ->
  height_check hs height = Some h' -> is_uint64 h'.
Proof.
  intros Hh Hall. revert height Hh.
  induction Hall as [| h hs Hu Hall IH]; intros height Hh Hc; simpl in Hc.
  - by simplify_eq.
  - destruct (decide (height <> 0 /\ h <> height)); [done |].
    exact (IH h Hu Hc).
Qed.

(** A successful direct [Store] keeps the bloom index well formed when
    the bloom list it encodes decodes again. *)
Lemma Store_keeps_bloom_index_wf `{ReceiptCodec} rs s h' rb bb :
  writes_left s = None ->
  height_check (map receipt_height rs) 0 = Some h' ->
  EncodeReceipts rs = Ok rb ->
  EncodeBlooms (map StorageReceipt.Bloom rs) = Ok bb ->
  is_ok (DecodeBlooms bb) = true ->
  bloom_index_wf (db s) ->
  bloom_index_wf (db (Receipts.Store rs (s, None)).2.1).
Proof.
  intros Hw Hc Hrb Hbb Hdec Hwf.
  assert (Hst : accepts_writes (s, None)) by (intros _; exact Hw).
  rewrite (Store_accepted rs (s, None) h' rb bb Hst Hc Hrb Hbb).
  unfold put_all; simpl. apply apply_batch_bloom_index_wf; [done |].
  apply Forall_app. split.
  - unfold tx_writes. apply Forall_fmap, Forall_forall. intros r _.
    unfold bloom_entry_wf. simpl. discriminate.
  - rewrite !makePrefix_one. repeat constructor.
    + unfold bloom_entry_wf. simpl. discriminate.
    + unfold bloom_entry_wf. simpl. intros _. exists h'. split_and!; try done.
      eapply (height_check_range _ 0); [| | exact Hc].
      * unfold is_uint64, MaxUint64. lia.
      * apply Forall_fmap, Forall_forall. intros r _. apply BigInt_Uint64_range.
Qed.

(** C5: with the latest height at the largest [uint64] and bloom lists
    stored under heights 3 and [MaxUint64], the range [3, MaxUint64]
    passes every bound check, yet the query returns no bloom list at
    all: the exclusive upper bound [end + 1] wraps around to 0.  One
    height lower the same store answers as the claim says. *)
Theorem BloomsForBlockRange_wraps_at_max_height :
  stored_height store_at_max latestEVMHeightKey = Some MaxUint64
  /\ bloom_at (H := fixture_codec) store_at_max 3 = Some [[14]]
  /\ bloom_at (H := fixture_codec) store_at_max MaxUint64 = Some [[13]]
  /\ (Receipts.BloomsForBlockRange (H := fixture_codec) 3 MaxUint64 store_at_max).1
     = Ok []
  /\ (Receipts.BloomsForBlockRange (H := fixture_codec) 3 (MaxUint64 - 1)
        store_at_max).1
     = Ok [BloomsHeight.mk [[14]] 3].
Proof. vm_compute. repeat split; reflexivity. Qed.

Lemma bloom_index_wf_of_list `{ReceiptCodec} (m : gmap (list Z) (list Z)) :
  Forall bloom_entry_wf (map_to_list m) -> bloom_index_wf m.
Proof.
  intros Hall k v Hlook. eapply Forall_forall in Hall; [exact Hall |].
  by apply elem_of_map_to_list.
Qed.

(** The in-range statement on the sample store, one height below the
    largest. *)
Lemma BloomsForBlockRange_in_range_sample :
  exists out,
    Receipts.BloomsForBlockRange (H := fixture_codec) 3 (MaxUint64 - 1) store_at_max
    = (Ok out, store_at_max)
    /\ StronglySorted Z.lt (BloomsHeight.Height <$> out)
    /\ forall h bl, BloomsHeight.mk bl h ∈ out <->
                    3 <= h <= MaxUint64 - 1
                    /\ bloom_at (H := fixture_codec) store_at_max h = Some bl.
Proof.
  apply (BloomsForBlockRange_in_range (H := fixture_codec) store_at_max
           3 (MaxUint64 - 1) MaxUint64).
  - reflexivity.
  - vm_compute. reflexivity.
  - apply bloom_index_wf_of_list.
    let l := eval vm_compute in (map_to_list (db store_at_max)) in
    assert (Hl : map_to_list (db store_at_max) = l) by (vm_compute; reflexivity).
    rewrite Hl. clear Hl.
    unfold bloom_entry_wf, bloomHeightKey.
    repeat (apply Forall_cons_2); try apply Forall_nil_2; cbn [fst snd head];
      try (intros Hh; discriminate Hh); intros _.
    + exists MaxUint64. split_and!; [unfold is_uint64, MaxUint64; lia
                                    | vm_compute; reflexivity | reflexivity].
    + exists 3. split_and!; [unfold is_uint64, MaxUint64; lia | reflexivity
                            | reflexivity].
  - unfold MaxUint64. lia.
  - lia.
  - lia.
Defined.

(** ** Cross-spork router *)

Lemma insert_boundary_perm lastHeight host bs :
  CrossSpork.insert_boundary lastHeight host bs ≡ₚ (lastHeight, host) :: bs.
Proof.
  induction bs as [| b bs IH]; simpl; [done |].
  destruct (decide (lastHeight < b.1)); [done |].
  rewrite IH. apply Permutation_swap.
Qed.

Lemma insert_boundary_heights lastHeight host bs x :
  x ∈ (CrossSpork.insert_boundary lastHeight host bs).*1 <->
  x = lastHeight \/ x ∈ bs.*1.
Proof.
  induction bs as [| b bs IH]; simpl.
  - rewrite list_elem_of_singleton, elem_of_nil. tauto.
  - destruct (decide (lastHeight < b.1)); simpl.
    + rewrite !elem_of_cons. tauto.
    + rewrite !elem_of_cons, IH. tauto.
Qed.

Lemma insert_boundary_sorted lastHeight host bs :
  lastHeight ∉ bs.*1 ->
  StronglySorted Z.lt bs.*1 ->
  StronglySorted Z.lt (CrossSpork.insert_boundary lastHeight host bs).*1.
Proof.
  intros Hfresh Hsorted.
  induction bs as [| b bs IH]; simpl.
  - repeat constructor.
  - simpl in Hfresh, Hsorted. apply not_elem_of_cons in Hfresh as [Hne Hfresh].
    apply StronglySorted_inv in Hsorted as [Hsorted Hall].
    destruct (decide (lastHeight < b.1)) as [Hlt | Hge]; simpl.
    + constructor; [by constructor |].
      constructor; [done |].
      eapply Forall_impl; [exact Hall |]. simpl. intros; lia.
    + constructor; [by apply IH |].
      apply Forall_forall. intros x Hx.
      apply insert_boundary_heights in Hx as [-> | Hx]; [lia |].
      by eapply Forall_forall in Hall.
Qed.

(** The boundaries of every router built by [AddSpork] calls are in
    strictly ascending order of [lastHeight]. *)
Lemma add_sporks_sorted sporks c c' :
  StronglySorted Z.lt (CrossSpork.sporkBoundaries c).*1 ->
  CrossSpork.add_sporks sporks c = Ok c' ->
  StronglySorted Z.lt (CrossSpork.sporkBoundaries c').*1.
Proof.
  revert c. induction sporks as [| [lastHeight host] sporks IH]; intros c Hs Ha;
    simpl in Ha.
  - by simplify_eq.
  - unfold CrossSpork.AddSpork in Ha.
    destruct (decide (lastHeight ∈ (CrossSpork.sporkBoundaries c).*1)); [done |].
    eapply IH; [| exact Ha]. simpl. by apply insert_boundary_sorted.
Qed.

Lemma add_sporks_current sporks c c' :
  CrossSpork.add_sporks sporks c = Ok c' ->
  CrossSpork.current c' = CrossSpork.current c.
Proof.
  revert c. induction sporks as [| [lastHeight host] sporks IH]; intros c Ha;
    simpl in Ha.
  - by simplify_eq.
  - unfold CrossSpork.AddSpork in Ha.
    destruct (decide (lastHeight ∈ (CrossSpork.sporkBoundaries c).*1)); [done |].
    by rewrite (IH _ Ha).
Qed.

(** On ascending boundaries the first boundary at or above a height is
    the least such boundary. *)
Lemma find_first_boundary (bs : list (Z * string)) height :
  StronglySorted Z.lt bs.*1 ->
  match find (fun b => bool_decide (b.1 >= height)) bs with
  | Some b0 =>
      b0 ∈ bs /\ b0.1 >= height
      /\ forall b, b ∈ bs -> b.1 >= height -> b0.1 <= b.1
  | None => forall b, b ∈ bs -> b.1 < height
  end.
Proof.
  induction bs as [| b bs IH]; intros Hs; simpl.
  - intros b Hb. by apply elem_of_nil in Hb.
  - simpl in Hs. apply StronglySorted_inv in Hs as [Hs Hall].
    destruct (bool_decide (b.1 >= height)) eqn:Hb.
    + apply bool_decide_eq_true in Hb. split_and!; [left | done |].
      intros b' Hb' _. apply elem_of_cons in Hb' as [-> | Hb']; [lia |].
      assert (b'.1 ∈ bs.*1) as Hin by (apply list_elem_of_fmap; eauto).
      eapply Forall_forall in Hall; [| exact Hin]. lia.
    + apply bool_decide_eq_false in Hb. specialize (IH Hs).
      destruct (find _ bs) as [b0 |].
      * destruct IH as (Hin & Hge & Hmin). split_and!; [by right | done |].
        intros b' Hb' Hge'. apply elem_of_cons in Hb' as [-> | Hb']; [lia |].
        by apply Hmin.
      * intros b' Hb'. apply elem_of_cons in Hb' as [-> | Hb']; [lia |].
        by apply IH.
Qed.

(** C6: in a router built by [AddSpork] calls, [getClientForHeight(h)]
    is the endpoint of the least boundary with [lastHeight >= h] (the
    boundary height included) when there is one, and the current
    endpoint when every boundary lies below [h].  In the scenario
    current = test1.com, (100, test2.com), (200, test3.com): 300 goes to
    test1.com, 150 and 200 to test3.com, 50 to test2.com. *)
Theorem getClientForHeight_routes cur sporks c h :
  CrossSpork.add_sporks sporks (CrossSpork.NewCrossSporkClient cur) = Ok c ->
  ((exists b0, b0 ∈ CrossSpork.sporkBoundaries c /\ b0.1 >= h
               /\ (forall b, b ∈ CrossSpork.sporkBoundaries c -> b.1 >= h ->
                             b0.1 <= b.1)
               /\ CrossSpork.getClientForHeight c h = b0.2)
   \/ ((forall b, b ∈ CrossSpork.sporkBoundaries c -> b.1 < h)
       /\ CrossSpork.getClientForHeight c h = CrossSpork.current c))
  /\ CrossSpork.current c = cur
  /\ (forall host, CrossSpork.getClientForHeight
                     (CrossSpork.mkClient cur [(h, host)]) h = host)
  /\ match scenario_client with
     | Ok sc =>
         CrossSpork.getClientForHeight sc 300 = "test1.com"%string
         /\ CrossSpork.getClientForHeight sc 150 = "test3.com"%string
         /\ CrossSpork.getClientForHeight sc 50 = "test2.com"%string
         /\ CrossSpork.getClientForHeight sc 200 = "test3.com"%string
     | Err _ => False
     end.
Proof.
  intros Hadd. split_and!.
  - pose proof (add_sporks_sorted sporks (CrossSpork.NewCrossSporkClient cur) c
                  (SSorted_nil _) Hadd) as Hs.
    pose proof (find_first_boundary (CrossSpork.sporkBoundaries c) h Hs) as Hf.
    unfold CrossSpork.getClientForHeight.
    destruct (find _ (CrossSpork.sporkBoundaries c)) as [b0 |].
    + left. exists b0. tauto.
    + by right.
  - by rewrite (add_sporks_current _ _ _ Hadd).
  - intros host. unfold CrossSpork.getClientForHeight. simpl.
    rewrite bool_decide_eq_true_2 by lia. done.
  - vm_compute. repeat split; reflexivity.
Qed.

Lemma getClientForHeight_routes_witness :
  match scenario_client with
  | Ok sc => CrossSpork.getClientForHeight sc 200 = "test3.com"%string
  | Err _ => False
  end.
Proof.
  pose proof (getClientForHeight_routes "test1.com"
                [(100, "test2.com"%string); (200, "test3.com"%string)]
                (CrossSpork.mkClient "test1.com"
                   [(100, "test2.com"%string); (200, "test3.com"%string)])
                200 eq_refl) as (_ & _ & _ & Hsc).
  destruct scenario_client; [| done]. apply Hsc.
Defined.

(** C8: on ascending boundaries, [AddSpork] with a [lastHeight] already
    registered fails with the duplicate-boundary error; with a new
    [lastHeight] it succeeds, keeps the current endpoint, holds the new
    boundary together with all the old ones, and keeps the boundaries in
    strictly ascending order.  [AddSpork(100, host2.com)] followed by
    [AddSpork(100, host3.com)] fails. *)
Theorem AddSpork_ordered_without_duplicates c lastHeight host :
  StronglySorted Z.lt (CrossSpork.sporkBoundaries c).*1 ->
  (lastHeight ∈ (CrossSpork.sporkBoundaries c).*1 ->
   CrossSpork.AddSpork lastHeight host c
   = Err (ErrMsg "provided last height already exists"))
  /\ (lastHeight ∉ (CrossSpork.sporkBoundaries c).*1 ->
      exists c', CrossSpork.AddSpork lastHeight host c = Ok c'
                 /\ CrossSpork.current c' = CrossSpork.current c
                 /\ CrossSpork.sporkBoundaries c'
                    ≡ₚ (lastHeight, host) :: CrossSpork.sporkBoundaries c
                 /\ StronglySorted Z.lt (CrossSpork.sporkBoundaries c').*1)
  /\ CrossSpork.add_sporks [(100, "host2.com"%string); (100, "host3.com"%string)]
       (CrossSpork.NewCrossSporkClient "host1.com")
     = Err (ErrMsg "provided last height already exists").
Proof.
  intros Hs. split_and!.
  - intros Hin. unfold CrossSpork.AddSpork. by rewrite decide_True.
  - intros Hfresh. unfold CrossSpork.AddSpork. rewrite decide_False by done.
    eexists. split_and!; [reflexivity | done | apply insert_boundary_perm |].
    simpl. by apply insert_boundary_sorted.
  - reflexivity.
Qed.

Lemma AddSpork_ordered_without_duplicates_witness :
  CrossSpork.AddSpork 100 "host3.com"
    (CrossSpork.mkClient "host1.com" [(100, "host2.com"%string)])
  = Err (ErrMsg "provided last height already exists").
Proof.
  refine (proj1 (AddSpork_ordered_without_duplicates
                   (CrossSpork.mkClient "host1.com" [(100, "host2.com"%string)])
                   100 "host3.com" _) _).
  - repeat constructor.
  - simpl. apply list_elem_of_singleton. reflexivity.
Defined.

(** ** The call transaction *)

(** C10: [encodeTxFromArgs] marshals an unsigned legacy transaction with
    nonce 0 and gas price 0, the recipient of the arguments, the given
    gas or else 15,000,000, the given value or else 0, and as payload
    the data if given, else the input if given, else nothing; whenever
    marshalling that transaction succeeds the result is its encoding,
    and a marshalling error comes back wrapped as invalid. *)
Theorem encodeTxFromArgs_legacy_tx `{Api.TxCodec} (args : Api.TransactionArgs) :
  exists tx : Api.LegacyTx.t,
    Api.LegacyTx.Nonce tx = 0
    /\ Api.LegacyTx.GasPrice tx = 0
    /\ Api.LegacyTx.To tx = Api.To args
    /\ (forall g, Api.Gas args = Some g -> Api.LegacyTx.Gas tx = g)
    /\ (Api.Gas args = None -> Api.LegacyTx.Gas tx = 15000000)
    /\ (forall v, Api.Value args = Some v -> Api.LegacyTx.Value tx = v)
    /\ (Api.Value args = None -> Api.LegacyTx.Value tx = 0)
    /\ (forall d, Api.Data args = Some d -> Api.LegacyTx.Data tx = d)
    /\ (forall i, Api.Data args = None -> Api.Input args = Some i ->
                  Api.LegacyTx.Data tx = i)
    /\ (Api.Data args = None -> Api.Input args = None ->
        Api.LegacyTx.Data tx = [])
    /\ (forall enc, Api.MarshalBinary (Api.NewTx tx) = Ok enc ->
                    Api.encodeTxFromArgs args = Ok enc)
    /\ (forall err, Api.MarshalBinary (Api.NewTx tx) = Err err ->
                    Api.encodeTxFromArgs args = Err (ErrWrap2 ErrInvalid err)).
Proof.
  destruct args as [to gas value data input].
  exists (Api.LegacyTx.mk 0 to (default 0 value) (default 15000000 gas) 0
            (default (default [] input) data)).
  unfold Api.encodeTxFromArgs, Api.blockGasLimit. simpl.
  split_and!; try reflexivity.
  - intros g ->. reflexivity.
  - intros ->. reflexivity.
  - intros v ->. reflexivity.
  - intros ->. reflexivity.
  - intros d ->. reflexivity.
  - intros i -> ->. reflexivity.
  - intros -> ->. reflexivity.
  - intros enc Henc. destruct gas, value, data, input; simpl in *;
      by rewrite Henc.
  - intros err Henc. destruct gas, value, data, input; simpl in *;
      by rewrite Henc.
Qed.

Lemma encodeTxFromArgs_legacy_tx_witness :
  Api.encodeTxFromArgs (H := fixture_tx_codec)
    (Api.mkArgs None None (Some 3) None (Some [1; 2]))
  = Ok [15000000; 3; 1; 2].
Proof.
  destruct (encodeTxFromArgs_legacy_tx (H := fixture_tx_codec)
              (Api.mkArgs None None (Some 3) None (Some [1; 2])))
    as (tx & _ & _ & _ & _ & Hgas & Hval & _ & _ & Hin & _ & Henc & _).
  apply Henc. destruct tx as [n t v g gp d]. simpl in *.
  rewrite (Hgas eq_refl), (Hval 3 eq_refl), (Hin [1; 2] eq_refl eq_refl).
  reflexivity.
Defined.

(** ** Block index: what a stored block reads back as *)

Lemma uint64Bytes_length h : length (uint64Bytes h) = 8%nat.
Proof. unfold uint64Bytes. apply be_bytes_length. Qed.

(** The keys of one [Store] call after its four writes, and every other
    key. *)
Lemma block_writes_lookup (ch : Z) (blk : Block) (val id : list Z)
    (m : gmap (list Z) (list Z)) :
  let m' : gmap (list Z) (list Z) := apply_batch (block_writes ch blk val id) m in
  m' !! (blockHeightKey :: uint64Bytes (Height blk)) = Some val
  /\ m' !! (blockIDToHeightKey :: id) = Some (uint64Bytes (Height blk))
  /\ m' !! (evmHeightToCadenceHeightKey :: uint64Bytes (Height blk))
     = Some (uint64Bytes ch)
  /\ m' !! [latestEVMHeightKey] = Some (uint64Bytes (Height blk))
  /\ forall k, hd 0 k <> blockHeightKey -> hd 0 k <> blockIDToHeightKey ->
               hd 0 k <> evmHeightToCadenceHeightKey ->
               hd 0 k <> latestEVMHeightKey ->
               m' !! k = m !! k.
Proof.
  unfold block_writes, apply_batch. rewrite !makePrefix_one.
  change (makePrefix latestEVMHeightKey [[]]) with [latestEVMHeightKey].
  cbn [fold_left fst snd].
  unfold blockHeightKey, blockIDToHeightKey, evmHeightToCadenceHeightKey,
    latestEVMHeightKey.
  split_and!.
  - rewrite !lookup_insert_ne by congruence. apply lookup_insert_eq.
  - rewrite !lookup_insert_ne by congruence. apply lookup_insert_eq.
  - rewrite lookup_insert_ne by congruence. apply lookup_insert_eq.
  - apply lookup_insert_eq.
  - intros k H1 H2 H3 H4.
    rewrite !lookup_insert_ne; [done | | | |]; intros <-; simpl in *; done.
Qed.

(** A [Store] whose writes the engine accepts. *)
Lemma Blocks_Store_accepted `{BlockCodec} b ch blk val id :
  ToBytes blk = Ok val -> Hash blk = Ok id ->
  writes_left (Blocks.store b) = None ->
  Blocks.Store ch blk b
  = (Ok tt,
     Blocks.mkBlocks
       (mkStorage (apply_batch (block_writes ch blk val id) (db (Blocks.store b)))
                  (reads_ok (Blocks.store b)) None)
       (<[latestEVMHeightKey := Height blk]> (Blocks.heightCache b))).
Proof.
  intros Hv Hi Hw. unfold Blocks.Store, bind, lift. rewrite Hv, Hi.
  destruct b as [[d r w] c]. simpl in Hw. subst w. reflexivity.
Qed.

(** What any [Store] call leaves behind: nothing, or a prefix of its
    four writes, with the cache updated only after the last. *)
Lemma Store_effect `{BlockCodec} b ch blk :
  (Blocks.Store ch blk b).2 = b
  \/ exists val id n,
       ToBytes blk = Ok val /\ Hash blk = Ok id /\ (n <= 4)%nat
       /\ db (Blocks.store (Blocks.Store ch blk b).2)
          = apply_batch (take n (block_writes ch blk val id)) (db (Blocks.store b))
       /\ reads_ok (Blocks.store (Blocks.Store ch blk b).2)
          = reads_ok (Blocks.store b)
       /\ Blocks.heightCache (Blocks.Store ch blk b).2
          = if decide (n = 4)%nat
            then <[latestEVMHeightKey := Height blk]> (Blocks.heightCache b)
            else Blocks.heightCache b.
Proof.
  unfold Blocks.Store, bind, lift.
  destruct (ToBytes blk) as [val | e] eqn:Hv; [| by left].
  destruct (Hash blk) as [id | e] eqn:Hi; [| by left].
  right. exists val, id. destruct b as [[d r w] c].
  destruct w as [[| [| [| [| n]]]] |];
    [exists 0%nat | exists 1%nat | exists 2%nat | exists 3%nat
    | exists 4%nat | exists 4%nat];
    (split_and!; [done | done | lia | reflexivity | reflexivity | reflexivity]).
Qed.

(** A prefix of the writes of [Store] leaves every one-byte key other
    than the latest-height key as it was. *)
Lemma block_writes_prefix_other (ch : Z) (blk : Block) (val id : list Z)
    (n : nat) (k : Z)
    (m : gmap (list Z) (list Z)) :
  id <> [] \/ k <> blockIDToHeightKey ->
  k <> latestEVMHeightKey ->
  apply_batch (take n (block_writes ch blk val id)) m !! [k] = m !! [k].
Proof.
  intros Hid Hk.
  assert (Hlen : uint64Bytes (Height blk) <> []).
  { intros Heq. apply (f_equal length) in Heq.
    by rewrite uint64Bytes_length in Heq. }
  assert (H2 : blockIDToHeightKey :: id <> [k])
    by (destruct Hid; congruence).
  unfold block_writes, apply_batch. rewrite !makePrefix_one.
  change (makePrefix latestEVMHeightKey [[]]) with [latestEVMHeightKey].
  destruct n as [| [| [| [| n]]]]; simpl; rewrite ?take_nil; simpl;
    rewrite ?lookup_insert_ne by congruence; done.
Qed.

(** Reading a watermark when the cache entry of that key, if any, is
    the stored value: the stored value comes back, the store is left
    alone and only that cache entry may change, to the value read. *)
Lemma getHeight_at b k h :
  reads_ok (Blocks.store b) = true ->
  stored_height (Blocks.store b) k = Some h ->
  (Blocks.cache_at b k <> 0 -> Blocks.cache_at b k = h) ->
  exists b', Blocks.getHeight k b = (Ok h, b')
             /\ Blocks.store b' = Blocks.store b
             /\ (forall k', k' <> k -> Blocks.cache_at b' k' = Blocks.cache_at b k')
             /\ (Blocks.cache_at b' k <> 0 -> Blocks.cache_at b' k = h).
Proof.
  intros Hr Hs Hc. unfold Blocks.getHeight.
  destruct (decide (Blocks.cache_at b k <> 0)) as [Hnz | Hz].
  - exists b. rewrite (Hc Hnz). by split_and!.
  - rewrite Storage_get_ok, makePrefix_nil by done.
    unfold stored_height in Hs.
    destruct (db (Blocks.store b) !! [k]) as [v |]; simpl in Hs; [| done].
    rewrite Hs. eexists. split_and!; [done | done | |];
      unfold Blocks.cache_at; simpl.
    + intros k' Hne. by rewrite lookup_insert_ne.
    + by rewrite lookup_insert_eq.
Qed.

(** Reading a watermark never breaks the coherence of the cache. *)
Lemma getHeight_keeps_coherent b k :
  cache_coherent b -> cache_coherent (Blocks.getHeight k b).2.
Proof.
  intros Hc. unfold Blocks.getHeight.
  destruct (decide (Blocks.cache_at b k <> 0)); [done |].
  unfold Storage_get, makePrefix. simpl.
  destruct (reads_ok (Blocks.store b)); [| done].
  destruct (db (Blocks.store b) !! [k]) as [v |] eqn:Hv; [| done].
  destruct (BigEndian_Uint64 v) as [h |] eqn:Hh; [| done]. simpl.
  intros k' c Hk' Hnz. simpl in *.
  destruct (decide (k = k')) as [<- | Hne].
  - rewrite lookup_insert_eq in Hk'. simplify_eq.
    unfold stored_height. by rewrite Hv.
  - rewrite lookup_insert_ne in Hk' by done. by apply Hc.
Qed.


Lemma stored_height_latest_after_writes (ch : Z) (blk : Block) (val id : list Z)
    (s : Storage) r w :
  is_uint64 (Height blk) ->
  stored_height
    (mkStorage (apply_batch (block_writes ch blk val id) (db s)) r w)
    latestEVMHeightKey = Some (Height blk).
Proof.
  intros Hu. unfold stored_height. cbn [db].
  destruct (block_writes_lookup ch blk val id (db s)) as (_ & _ & _ & -> & _).
  simpl. by apply BigEndian_Uint64_uint64Bytes.
Qed.

(** After an accepted [Store] the latest height reads back as the
    block's height. *)
Lemma LatestEVMHeight_after_writes (ch : Z) (blk : Block) (val id : list Z) b :
  is_uint64 (Height blk) ->
  reads_ok (Blocks.store b) = true ->
  let b' := Blocks.mkBlocks
              (mkStorage (apply_batch (block_writes ch blk val id)
                                      (db (Blocks.store b)))
                         (reads_ok (Blocks.store b)) None)
              (<[latestEVMHeightKey := Height blk]> (Blocks.heightCache b)) in
  exists b'', Blocks.getHeight latestEVMHeightKey b' = (Ok (Height blk), b'')
              /\ Blocks.store b'' = Blocks.store b'.
Proof.
  intros Hu Hr b'.
  destruct (getHeight_at b' latestEVMHeightKey (Height blk)) as (b'' & E & S & _).
  - exact Hr.
  - by apply stored_height_latest_after_writes.
  - intros _. unfold Blocks.cache_at, b'. simpl. by rewrite lookup_insert_eq.
  - by exists b''.
Qed.

(** X1: a block stored by an accepted [Store] is read back by its id as
    the decoding of the bytes [ToBytes] gave, whatever the watermarks
    are; the read changes nothing. *)
Theorem GetByID_after_Store `{BlockCodec} b ch blk val id :
  writes_left (Blocks.store b) = None ->
  reads_ok (Blocks.store b) = true ->
  ToBytes blk = Ok val ->
  Hash blk = Ok id ->
  let out := Blocks.Store ch blk b in
  out.1 = Ok tt
  /\ Blocks.GetByID id out.2 = (NewBlockFromBytes val, out.2).
Proof.
  intros Hw Hr Hv Hi out. subst out.
  rewrite (Blocks_Store_accepted b ch blk val id Hv Hi Hw). cbn [fst snd].
  split; [done |].
  destruct (block_writes_lookup ch blk val id (db (Blocks.store b)))
    as (Hblock & Hid & _).
  unfold Blocks.GetByID, Blocks.getBlock, bind, Blocks.store_get, lift,
    Storage_get. cbn [Blocks.store db reads_ok].
  rewrite Hr, !makePrefix_one, Hid, makePrefix_one, Hblock. reflexivity.
Qed.

Lemma GetByID_after_Store_witness :
  (Blocks.GetByID (H := plain_block_codec) (255 :: uint64Bytes 7)
     (Blocks.Store (H := plain_block_codec) 42 block7
        (Blocks.mkBlocks empty_storage ∅)).2).1
  = Ok block7.
Proof.
  pose proof (GetByID_after_Store (H := plain_block_codec)
                (Blocks.mkBlocks empty_storage ∅) 42 block7
                (uint64Bytes 7 ++ [1; 2; 3]) (255 :: uint64Bytes 7)
                eq_refl eq_refl eq_refl eq_refl) as [_ Hget].
  rewrite Hget. reflexivity.
Defined.

(** X2: on a handle whose height cache is coherent with the stored
    watermarks, when the first watermark is stored and not above the
    block's height, an accepted [Store] makes [GetByHeight] of that
    height return the decoding of the stored bytes, and every greater
    height answer [NotFound]: the block stored last is the upper end of
    the range. *)
Theorem GetByHeight_after_Store `{BlockCodec} b ch blk val id first :
  writes_left (Blocks.store b) = None ->
  reads_ok (Blocks.store b) = true ->
  cache_coherent b ->
  stored_height (Blocks.store b) firstEVMHeightKey = Some first ->
  is_uint64 (Height blk) ->
  ToBytes blk = Ok val ->
  Hash blk = Ok id ->
  let out := Blocks.Store ch blk b in
  (first <= Height blk ->
   (Blocks.GetByHeight (Height blk) out.2).1 = NewBlockFromBytes val)
  /\ (forall h, Height blk < h ->
                (Blocks.GetByHeight h out.2).1 = Err ErrNotFound).
Proof.
  intros Hw Hr Hc Hf Hu Hv Hi out. subst out.
  rewrite (Blocks_Store_accepted b ch blk val id Hv Hi Hw). cbn [snd].
  set (b' := Blocks.mkBlocks _ _).
  destruct (block_writes_lookup ch blk val id (db (Blocks.store b)))
    as (Hblock & _ & _ & Hlatest & Hother).
  assert (Hf' : stored_height (Blocks.store b') firstEVMHeightKey = Some first).
  { unfold stored_height in *. unfold b'. cbn [Blocks.store db].
    rewrite Hother; done. }
  destruct (getHeight_at b' firstEVMHeightKey first) as (b1 & E1 & S1 & C1 & _);
    [done | done | |].
  { unfold Blocks.cache_at, b'. simpl.
    rewrite lookup_insert_ne by done. intros Hnz.
    unfold cache_coherent in Hc.
    destruct (Blocks.heightCache b !! firstEVMHeightKey) as [c |] eqn:Hk;
      simpl in *; [| done].
    specialize (Hc _ _ Hk Hnz). congruence. }
  destruct (getHeight_at b1 latestEVMHeightKey (Height blk)) as (b2 & E2 & S2 & _).
  { by rewrite S1. }
  { rewrite S1. by apply stored_height_latest_after_writes. }
  { intros _. rewrite C1 by done. unfold Blocks.cache_at, b'. simpl.
    by rewrite lookup_insert_eq. }
  unfold Blocks.GetByHeight, bind, Blocks.FirstEVMHeight, Blocks.LatestEVMHeight.
  rewrite E1, E2. split.
  - intros Hle. rewrite decide_False by lia.
    rewrite getBlock_height by (by rewrite S2, S1). cbn [fst].
    rewrite S2, S1. unfold block_at, b'. cbn [Blocks.store db].
    by rewrite Hblock.
  - intros h Hlt. rewrite decide_True by lia. reflexivity.
Qed.

Lemma GetByHeight_after_Store_witness :
  (Blocks.GetByHeight (H := plain_block_codec) 7
     (Blocks.Store (H := plain_block_codec) 42 block7 blocks_init5).2).1
  = Ok block7.
Proof.
  refine (proj1 (GetByHeight_after_Store (H := plain_block_codec)
                   blocks_init5 42 block7 (uint64Bytes 7 ++ [1; 2; 3])
                   (255 :: uint64Bytes 7) 5 _ _ _ _ _ _ _) _).
  - reflexivity.
  - reflexivity.
  - apply cache_coherent_empty.
  - vm_compute. reflexivity.
  - unfold is_uint64, MaxUint64. simpl. lia.
  - reflexivity.
  - reflexivity.
  - simpl. lia.
Defined.

(** X3: after an accepted [Store] the latest EVM height is the block's
    height, whatever it was before (heights are not required to grow),
    and both the height's and the latest Cadence height are the Cadence
    height given to [Store]. *)
Theorem heights_after_Store `{BlockCodec} b ch blk val id :
  writes_left (Blocks.store b) = None ->
  reads_ok (Blocks.store b) = true ->
  is_uint64 (Height blk) ->
  is_uint64 ch ->
  ToBytes blk = Ok val ->
  Hash blk = Ok id ->
  let out := Blocks.Store ch blk b in
  (Blocks.LatestEVMHeight out.2).1 = Ok (Height blk)
  /\ (Blocks.GetCadenceHeight (Height blk) out.2).1 = Ok ch
  /\ (Blocks.LatestCadenceHeight out.2).1 = Ok ch.
Proof.
  intros Hw Hr Hu Huc Hv Hi out. subst out.
  rewrite (Blocks_Store_accepted b ch blk val id Hv Hi Hw). cbn [snd].
  destruct (LatestEVMHeight_after_writes ch blk val id b Hu Hr) as (b'' & E & S).
  destruct (block_writes_lookup ch blk val id (db (Blocks.store b)))
    as (_ & _ & Hcad & _).
  assert (Hget : forall bx, Blocks.store bx
                   = mkStorage (apply_batch (block_writes ch blk val id)
                                            (db (Blocks.store b)))
                               (reads_ok (Blocks.store b)) None ->
            (Blocks.getCadenceHeight (Height blk) bx).1 = Ok ch).
  { intros bx Hbx.
    unfold Blocks.getCadenceHeight, bind, Blocks.store_get, Storage_get.
    rewrite Hbx. cbn [db reads_ok]. rewrite Hr, makePrefix_one, Hcad.
    by rewrite BigEndian_Uint64_uint64Bytes. }
  split_and!.
  - unfold Blocks.LatestEVMHeight. by rewrite E.
  - unfold Blocks.GetCadenceHeight. by apply Hget.
  - unfold Blocks.LatestCadenceHeight, bind. rewrite E. by apply Hget.
Qed.

Lemma heights_after_Store_witness :
  (Blocks.LatestCadenceHeight
     (Blocks.Store (H := plain_block_codec) 42 block7 blocks_init5).2).1
  = Ok 42.
Proof.
  refine (proj2 (proj2 (heights_after_Store (H := plain_block_codec)
                   blocks_init5 42 block7 (uint64Bytes 7 ++ [1; 2; 3])
                   (255 :: uint64Bytes 7) _ _ _ _ _ _))).
  - reflexivity.
  - reflexivity.
  - unfold is_uint64, MaxUint64. simpl. lia.
  - unfold is_uint64, MaxUint64. lia.
  - reflexivity.
  - reflexivity.
Defined.

(** X4: [Store] never creates the first-height watermark.  On an index
    where it is not stored, [GetByHeight] answers [NotInitialized] for
    every height after any [Store] call, also for the height of the
    block just stored. *)
Theorem Store_leaves_first_height_unset `{BlockCodec} b ch blk h :
  reads_ok (Blocks.store b) = true ->
  cache_coherent b ->
  db (Blocks.store b) !! [firstEVMHeightKey] = None ->
  db (Blocks.store (Blocks.Store ch blk b).2) !! [firstEVMHeightKey] = None
  /\ (Blocks.GetByHeight h (Blocks.Store ch blk b).2).1 = Err ErrNotInitialized.
Proof.
  intros Hr Hc Hnone.
  assert (Hz : Blocks.cache_at b firstEVMHeightKey = 0).
  { unfold Blocks.cache_at.
    destruct (Blocks.heightCache b !! firstEVMHeightKey) as [c |] eqn:Hk;
      simpl; [| done].
    destruct (decide (c = 0)) as [| Hnz]; [done |].
    specialize (Hc _ _ Hk Hnz). unfold stored_height in Hc.
    by rewrite Hnone in Hc. }
  assert (Hmiss : forall b', reads_ok (Blocks.store b') = true ->
            Blocks.cache_at b' firstEVMHeightKey = 0 ->
            db (Blocks.store b') !! [firstEVMHeightKey] = None ->
            (Blocks.GetByHeight h b').1 = Err ErrNotInitialized).
  { intros b' Hr' Hz' Hn'.
    unfold Blocks.GetByHeight, bind, Blocks.FirstEVMHeight, Blocks.getHeight.
    destruct (decide (Blocks.cache_at b' firstEVMHeightKey <> 0)) as [Hnz | _];
      [by rewrite Hz' in Hnz |].
    by rewrite Storage_get_ok, makePrefix_nil, Hn'. }
  destruct (Store_effect b ch blk)
    as [-> | (val & id & n & _ & _ & _ & Hdb & Hreads & Hcache)];
    [split; [done | by apply Hmiss] |].
  assert (Hn' : db (Blocks.store (Blocks.Store ch blk b).2)
                !! [firstEVMHeightKey] = None).
  { rewrite Hdb, block_writes_prefix_other; [done | by right | done]. }
  split; [done |]. apply Hmiss; [congruence | | done].
  unfold Blocks.cache_at in *. rewrite Hcache.
  destruct (decide (n = 4)%nat); [| done].
  by rewrite lookup_insert_ne.
Qed.

Lemma Store_leaves_first_height_unset_witness :
  (Blocks.GetByHeight (H := plain_block_codec) 7
     (Blocks.Store (H := plain_block_codec) 42 block7
        (Blocks.mkBlocks empty_storage ∅)).2).1
  = Err ErrNotInitialized.
Proof.
  refine (proj2 (Store_leaves_first_height_unset (H := plain_block_codec)
                   (Blocks.mkBlocks empty_storage ∅) 42 block7 7 _ _ _)).
  - reflexivity.
  - apply cache_coherent_empty.
  - reflexivity.
Defined.



(** On a handle that has cached a watermark, [storeInitHeight] breaks
    coherence: the handle of [blocks_init5] has read its first height 5,
    the second bootstrap stores 7, and the cache still holds 5. *)
Lemma storeInitHeight_on_live_handle_incoherent :
  cache_coherent (Blocks.FirstEVMHeight blocks_init5).2
  /\ Blocks.cache_at live_handle_reinit firstEVMHeightKey = 5
  /\ stored_height (Blocks.store live_handle_reinit) firstEVMHeightKey = Some 7
  /\ ~ cache_coherent live_handle_reinit.
Proof.
  split_and!.
  - apply getHeight_keeps_coherent, cache_coherent_empty.
  - reflexivity.
  - reflexivity.
  - intros Hc. specialize (Hc firstEVMHeightKey 5 eq_refl).
    assert (Hs : stored_height (Blocks.store live_handle_reinit) firstEVMHeightKey
                 = Some 7) by reflexivity.
    rewrite Hs in Hc. assert (Some 7 = Some 5) as Heq by (apply Hc; lia).
    discriminate Heq.
Qed.



(** X6: a second accepted [Store] at a height already stored replaces
    the block of that height, and the id of the earlier block stays
    indexed: looked up by either id, the later block's bytes come
    back. *)
Theorem Store_same_height_replaces `{BlockCodec} b ch1 ch2 blk1 blk2
    val1 val2 id1 id2 :
  writes_left (Blocks.store b) = None ->
  reads_ok (Blocks.store b) = true ->
  ToBytes blk1 = Ok val1 -> Hash blk1 = Ok id1 ->
  ToBytes blk2 = Ok val2 -> Hash blk2 = Ok id2 ->
  Height blk1 = Height blk2 ->
  let b2 := (Blocks.Store ch2 blk2 (Blocks.Store ch1 blk1 b).2).2 in
  (Blocks.GetByID id1 b2).1 = NewBlockFromBytes val2
  /\ (Blocks.GetByID id2 b2).1 = NewBlockFromBytes val2.
Proof.
  intros Hw Hr Hv1 Hi1 Hv2 Hi2 Hh b2. subst b2.
  rewrite (Blocks_Store_accepted b ch1 blk1 val1 id1 Hv1 Hi1 Hw). cbn [snd].
  match goal with
  | |- context [Blocks.Store ch2 blk2 ?bb] =>
      rewrite (Blocks_Store_accepted bb ch2 blk2 val2 id2 Hv2 Hi2 eq_refl)
  end.
  cbn [snd Blocks.store db reads_ok].
  destruct (block_writes_lookup ch1 blk1 val1 id1 (db (Blocks.store b)))
    as (_ & Hid1 & _).
  set (m1 := apply_batch (block_writes ch1 blk1 val1 id1) _) in *.
  destruct (block_writes_lookup ch2 blk2 val2 id2 m1)
    as (Hblock2 & Hid2 & _).
  assert (Hid1' : apply_batch (block_writes ch2 blk2 val2 id2) m1
                  !! (blockIDToHeightKey :: id1)
                  = Some (uint64Bytes (Height blk2))).
  { destruct (decide (id1 = id2)) as [-> | Hne]; [done |].
    unfold block_writes, apply_batch. rewrite !makePrefix_one.
    change (makePrefix latestEVMHeightKey [[]]) with [latestEVMHeightKey].
    cbn [fold_left fst snd].
    unfold blockHeightKey, blockIDToHeightKey, evmHeightToCadenceHeightKey,
      latestEVMHeightKey in *.
    rewrite !lookup_insert_ne by congruence. by rewrite <- Hh. }
  set (m2 := apply_batch (block_writes ch2 blk2 val2 id2) m1) in *.
  unfold Blocks.GetByID, Blocks.getBlock, bind, Blocks.store_get, lift,
    Storage_get. cbn [Blocks.store db reads_ok].
  rewrite Hr, !makePrefix_one, Hid1', Hid2, makePrefix_one, Hblock2. done.
Qed.

(** Two blocks of height 7 with different payloads, under a hash that
    covers the payload: the ids differ, and the id of the first block
    yields the second. *)
Lemma Store_same_height_replaces_witness :
  Hash (BlockCodec := payload_hash_codec) block7
  <> Hash (BlockCodec := payload_hash_codec) (mkBlock 7 [9])
  /\ (Blocks.GetByID (H := payload_hash_codec)
        (255 :: uint64Bytes 7 ++ [1; 2; 3])
        (Blocks.Store (H := payload_hash_codec) 43 (mkBlock 7 [9])
           (Blocks.Store (H := payload_hash_codec) 42 block7
              (Blocks.mkBlocks empty_storage ∅)).2).2).1
     = Ok (mkBlock 7 [9]).
Proof.
  split.
  - intros Heq. vm_compute in Heq. discriminate Heq.
  - refine (proj1 (Store_same_height_replaces (H := payload_hash_codec)
                     (Blocks.mkBlocks empty_storage ∅) 42 43
                     block7 (mkBlock 7 [9])
                     (uint64Bytes 7 ++ [1; 2; 3]) (uint64Bytes 7 ++ [9])
                     (255 :: uint64Bytes 7 ++ [1; 2; 3])
                     (255 :: uint64Bytes 7 ++ [9])
                     _ _ _ _ _ _ _)); reflexivity.
Defined.

(** X7: on a readable store whose writes are accepted,
    [NewBlocks(store, WithInitHeight(h))] succeeds and afterwards the
    first and the latest height both read [h]; [GetByHeight] answers
    [NotFound] for every other height. *)
Theorem WithInitHeight_bootstraps `{BlockCodec} s h :
  reads_ok s = true ->
  writes_left s = None ->
  is_uint64 h ->
  exists blk,
    Blocks.NewBlocks s [Blocks.WithInitHeight h] = (Ok blk, Blocks.store blk)
    /\ (Blocks.FirstEVMHeight blk).1 = Ok h
    /\ (Blocks.LatestEVMHeight blk).1 = Ok h
    /\ forall h', h' <> h -> (Blocks.GetByHeight h' blk).1 = Err ErrNotFound.
Proof.
  intros Hr Hw Hu.
  unfold Blocks.NewBlocks, Blocks.run_opts, Blocks.WithInitHeight, bind.
  rewrite (storeInitHeight_always_writes (Blocks.mkBlocks s ∅) h Hr Hw).
  cbn [Blocks.store Blocks.heightCache db ret].
  set (blk := Blocks.mkBlocks _ ∅). exists blk. split; [done |].
  assert (Hf : stored_height (Blocks.store blk) firstEVMHeightKey = Some h).
  { unfold stored_height, blk. cbn [Blocks.store db].
    rewrite lookup_insert_ne by done. rewrite lookup_insert_eq. simpl.
    by apply BigEndian_Uint64_uint64Bytes. }
  assert (Hl : stored_height (Blocks.store blk) latestEVMHeightKey = Some h).
  { unfold stored_height, blk. cbn [Blocks.store db].
    rewrite lookup_insert_eq. simpl. by apply BigEndian_Uint64_uint64Bytes. }
  destruct (getHeight_stored blk _ _ eq_refl (cache_coherent_empty _) Hf)
    as (b1 & E1 & S1 & C1).
  destruct (getHeight_stored blk _ _ eq_refl (cache_coherent_empty _) Hl)
    as (b1' & E1' & _).
  assert (Hl1 : stored_height (Blocks.store b1) latestEVMHeightKey = Some h)
    by (by rewrite S1).
  assert (Hr1 : reads_ok (Blocks.store b1) = true) by (by rewrite S1).
  destruct (getHeight_stored b1 _ _ Hr1 C1 Hl1) as (b2 & E2 & _).
  split_and!.
  - unfold Blocks.FirstEVMHeight. by rewrite E1.
  - unfold Blocks.LatestEVMHeight. by rewrite E1'.
  - intros h' Hne.
    unfold Blocks.GetByHeight, bind, Blocks.FirstEVMHeight,
      Blocks.LatestEVMHeight.
    rewrite E1, E2. rewrite decide_True by lia. done.
Qed.

Lemma WithInitHeight_bootstraps_witness :
  exists blk,
    Blocks.NewBlocks empty_storage [Blocks.WithInitHeight 5]
    = (Ok blk, Blocks.store blk)
    /\ (Blocks.FirstEVMHeight blk).1 = Ok 5
    /\ (Blocks.LatestEVMHeight blk).1 = Ok 5
    /\ forall h', h' <> 5 ->
         (Blocks.GetByHeight (H := plain_block_codec) h' blk).1 = Err ErrNotFound.
Proof.
  apply (WithInitHeight_bootstraps (H := plain_block_codec) empty_storage 5).
  - reflexivity.
  - reflexivity.
  - unfold is_uint64, MaxUint64. lia.
Defined.

(** X8: while the latest height is not stored, [LatestEVMHeight] and
    [LatestCadenceHeight] answer [NotInitialized], and so does
    [GetByHeight] for every height even when the first height is
    stored; none of them changes the store. *)
Theorem latest_height_unset_NotInitialized `{BlockCodec} b :
  reads_ok (Blocks.store b) = true ->
  cache_coherent b ->
  db (Blocks.store b) !! [latestEVMHeightKey] = None ->
  Blocks.LatestEVMHeight b = (Err ErrNotInitialized, b)
  /\ Blocks.LatestCadenceHeight b = (Err ErrNotInitialized, b)
  /\ forall h first,
       stored_height (Blocks.store b) firstEVMHeightKey = Some first ->
       (Blocks.GetByHeight h b).1 = Err ErrNotInitialized
       /\ Blocks.store (Blocks.GetByHeight h b).2 = Blocks.store b.
Proof.
  intros Hr Hc Hnone.
  pose proof (getHeight_missing b latestEVMHeightKey Hr Hc Hnone) as Hl.
  split_and!.
  - exact Hl.
  - unfold Blocks.LatestCadenceHeight, bind. by rewrite Hl.
  - intros h first Hf.
    destruct (getHeight_stored b _ _ Hr Hc Hf) as (b1 & E1 & S1 & C1).
    unfold Blocks.GetByHeight, bind, Blocks.FirstEVMHeight,
      Blocks.LatestEVMHeight. rewrite E1.
    rewrite (getHeight_missing b1 latestEVMHeightKey) by (by rewrite ?S1).
    done.
Qed.

Lemma latest_height_unset_NotInitialized_witness :
  Blocks.LatestCadenceHeight (Blocks.mkBlocks empty_storage ∅)
  = (Err ErrNotInitialized, Blocks.mkBlocks empty_storage ∅).
Proof.
  refine (proj1 (proj2 (latest_height_unset_NotInitialized
                          (H := plain_block_codec)
                          (Blocks.mkBlocks empty_storage ∅) _ _ _))).
  - reflexivity.
  - apply cache_coherent_empty.
  - reflexivity.
Defined.

(** ** Receipt index: further properties *)

Lemma store_loop_on_batch `{ReceiptCodec} rs height blooms s (b : list (list Z * list Z)) :
  exists ws, (Receipts.store_loop rs height blooms (s, Some b)).2
             = (s, Some (b ++ ws)).
Proof.
  revert height blooms b.
  induction rs as [| r rs IH]; intros height blooms b; simpl.
  - exists []. by rewrite app_nil_r.
  - destruct (decide _); [exists []; by rewrite app_nil_r |].
    unfold bind at 1, wrapping, Storage_set. cbn [fst snd].
    destruct (IH (BigInt_Uint64 (StorageReceipt.BlockNumber r))
                 (blooms ++ [StorageReceipt.Bloom r])
                 (b ++ [(makePrefix receiptTxIDToHeightKey
                           [StorageReceipt.TxHash r],
                         uint64Bytes (BigInt_Uint64 (StorageReceipt.BlockNumber r)))]))
      as (ws & Hws).
    rewrite Hws. eexists. by rewrite <- app_assoc.
Qed.

(** X9: given a batch, [Store] never writes to the engine: whatever the
    receipts are and however the call ends, the store is left as it was
    and the batch only grows at its end. *)
Theorem Store_on_batch_leaves_store `{ReceiptCodec} rs s
    (b : list (list Z * list Z)) :
  exists ws, (Receipts.Store rs (s, Some b)).2 = (s, Some (b ++ ws)).
Proof.
  unfold Receipts.Store.
  destruct (store_loop_on_batch rs 0 [] s b) as (ws & Hws).
  unfold bind at 1.
  destruct (Receipts.store_loop rs 0 [] (s, Some b)) as [[acc | e] st];
    simpl in Hws; subst st; [| by exists ws].
  unfold bind at 1, lift at 1.
  destruct (EncodeReceipts rs) as [rb | e]; [| by exists ws].
  unfold bind at 1, wrapping at 1, Storage_set at 1. cbn [fst snd].
  unfold bind at 1, wrapping at 1, lift at 1.
  destruct (EncodeBlooms acc.2) as [bb | e];
    [| eexists; by rewrite <- app_assoc].
  unfold wrapping, Storage_set. cbn [fst snd].
  eexists. by rewrite <- !app_assoc.
Qed.

(** X10: when the first receipt has a non-zero height and some later
    receipt another height, [Store] fails with the multiple-heights
    error (the engine accepting the writes made before the check
    fires). *)
Theorem Store_rejects_other_height_after_nonzero `{ReceiptCodec} r0 rest r st :
  accepts_writes st ->
  receipt_height r0 <> 0 ->
  r ∈ rest ->
  receipt_height r <> receipt_height r0 ->
  (Receipts.Store (r0 :: rest) st).1
  = Err (ErrMsg "can't store receipts for multiple heights").
Proof.
  intros Hst Hnz Hin Hne.
  pose proof (store_loop_accepted (r0 :: rest) 0 [] st Hst) as Hloop.
  destruct (height_check (map receipt_height (r0 :: rest)) 0) as [h' |] eqn:Hc.
  - exfalso. simpl in Hc.
    destruct (decide (0 <> 0 /\ receipt_height r0 <> 0)) as [[? _] | _]; [done |].
    destruct (height_check_nonzero _ _ _ Hnz Hc) as [_ Hall].
    rewrite Forall_fmap in Hall.
    eapply Forall_forall in Hall; [| exact Hin]. by apply Hne.
  - unfold Receipts.Store, bind at 1.
    destruct (Receipts.store_loop (r0 :: rest) 0 [] st) as [[acc | e] st'];
      simpl in Hloop; [done | by simplify_eq].
Qed.

Lemma Store_rejects_other_height_after_nonzero_witness :
  (Receipts.Store (H := fixture_codec) [receipt_a; receipt_z]
                  (empty_storage, None)).1
  = Err (ErrMsg "can't store receipts for multiple heights").
Proof.
  apply (Store_rejects_other_height_after_nonzero (H := fixture_codec)
           receipt_a [receipt_z] receipt_z).
  - intros _. reflexivity.
  - vm_compute. discriminate.
  - apply list_elem_of_singleton. reflexivity.
  - vm_compute. discriminate.
Defined.

(** X12: [GetByTransactionID] never hands out a receipt of another
    transaction: a receipt it returns has the requested hash, and the
    store is unchanged; for a hash that is not in the transaction index
    it fails with an error wrapping [NotFound]. *)
Theorem GetByTransactionID_matches_hash `{ReceiptCodec} (ID : list Z) s :
  (forall rcp, (Receipts.GetByTransactionID ID s).1 = Ok rcp ->
               StorageReceipt.TxHash rcp = ID)
  /\ (Receipts.GetByTransactionID ID s).2 = s
  /\ (reads_ok s = true ->
      db s !! (receiptTxIDToHeightKey :: ID) = None ->
      (Receipts.GetByTransactionID ID s).1
      = Err (ErrWrap "failed to get receipt by tx ID" ErrNotFound)).
Proof.
  unfold Receipts.GetByTransactionID, Receipts.getByBlockHeight, bind,
    wrapping, Receipts.store_get, lift, ret, throw.
  split_and!.
  - intros rcp.
    destruct (Storage_get s receiptTxIDToHeightKey [ID]) as [hb |]; [| done].
    destruct (Storage_get s receiptHeightKey [hb]) as [v |]; [| done].
    destruct (DecodeReceipts v) as [decoded |]; [| done].
    destruct (find _ _) as [g |] eqn:Hfind; [| done].
    simpl. intros ?; simplify_eq.
    apply find_some in Hfind as [_ Hg]. by apply bool_decide_eq_true in Hg.
  - destruct (Storage_get s receiptTxIDToHeightKey [ID]) as [hb |]; [| done].
    destruct (Storage_get s receiptHeightKey [hb]) as [v |]; [| done].
    destruct (DecodeReceipts v) as [decoded |]; [| done].
    by destruct (find _ _).
  - intros Hr Hnone. rewrite Storage_get_ok, makePrefix_one, Hnone by done.
    done.
Qed.

(** X17: what [getByBlockHeight] makes of a decoded receipt depends on
    the persisted fields only: two receipts that agree on those are
    populated to the same receipt, whatever the decoder left in the
    derived log fields. *)
Theorem populate_ignores_derived_fields r d :
  same_persisted r d -> Receipts.populate r = Receipts.populate d.
Proof.
  intros (Hb & Ht & Hbh & Hbn & Hti & Hr & Hlogs).
  unfold Receipts.populate. rewrite Hb, Ht, Hbh, Hbn, Hti, Hr. f_equal.
  apply list_eq. intros j. rewrite !list_lookup_imap.
  destruct (StorageReceipt.Logs r !! j) as [l |] eqn:Hl.
  - destruct (Forall2_lookup_l _ _ _ _ _ Hlogs Hl) as (dl & -> & Ha & Htp & Hd).
    simpl. unfold Receipts.populate_log.
    by rewrite Ha, Htp, Hd, Ht, Hbh, Hbn, Hti.
  - assert (StorageReceipt.Logs d !! j = None) as ->; [| done].
    apply lookup_ge_None. apply lookup_ge_None in Hl.
    by rewrite <- (Forall2_length _ _ _ Hlogs).
Qed.

Lemma populate_ignores_derived_fields_witness :
  Receipts.populate receipt_a = Receipts.populate (decoded_receipt receipt_a).
Proof.
  apply populate_ignores_derived_fields. apply fixture_same_persisted.
Defined.

Lemma GetByTransactionID_matches_hash_witness :
  (Receipts.GetByTransactionID (H := fixture_codec) [170] empty_storage).1
  = Err (ErrWrap "failed to get receipt by tx ID" ErrNotFound).
Proof.
  refine (proj2 (proj2 (GetByTransactionID_matches_hash (H := fixture_codec)
                          [170] empty_storage)) _ _); reflexivity.
Defined.

Lemma apply_batch_lookup_kept (ws : list (list Z * list Z)) (m : gmap (list Z) (list Z)) (k v : list Z) :
  (forall v', (k, v') ∈ ws -> v' = v) ->
  m !! k = Some v ->
  apply_batch ws m !! k = Some v.
Proof.
  revert m. induction ws as [| [k' v'] ws IH]; intros m Hall Hm; simpl; [done |].
  apply IH.
  - intros v'' Hin. apply Hall. by right.
  - destruct (decide (k' = k)) as [-> | Hne].
    + rewrite lookup_insert_eq. f_equal. apply Hall. by left.
    + by rewrite lookup_insert_ne.
Qed.

(** A key written only with one value holds that value after the
    writes. *)
Lemma apply_batch_lookup_mem (ws : list (list Z * list Z)) (m : gmap (list Z) (list Z)) (k v : list Z) :
  (k, v) ∈ ws ->
  (forall v', (k, v') ∈ ws -> v' = v) ->
  apply_batch ws m !! k = Some v.
Proof.
  revert m. induction ws as [| [k' v'] ws IH]; intros m Hin Hall.
  - by apply elem_of_nil in Hin.
  - simpl. apply elem_of_cons in Hin as [Heq | Hin].
    + simplify_eq. apply apply_batch_lookup_kept.
      * intros v'' Hin. apply Hall. by right.
      * apply lookup_insert_eq.
    + apply IH; [done |]. intros v'' Hin'. apply Hall. by right.
Qed.

Lemma visible_after_put_all ws st :
  writes_left st.1 = None ->
  db (visible_after (put_all ws st)) = apply_batch ws (db (visible_after st))
  /\ reads_ok (visible_after (put_all ws st)) = reads_ok st.1.
Proof.
  destruct st as [[d r w] [b |]]; simpl; intros ->;
    unfold visible_after, put_all, Batch_Commit; simpl; [| done].
  by rewrite apply_batch_app.
Qed.

(** X11: after the receipts of one height are stored (directly, or on a
    batch then committed) with an encoding that round-trips on what is
    persisted, [GetByTransactionID] of the hash of any of them returns a
    receipt of that hash, rehydrated from a stored receipt with that
    hash. *)
Theorem GetByTransactionID_after_Store `{ReceiptCodec} st rs h rb bb decoded r :
  writes_left st.1 = None ->
  reads_ok st.1 = true ->
  Forall (fun r => receipt_height r = h) rs ->
  EncodeReceipts rs = Ok rb ->
  EncodeBlooms (map StorageReceipt.Bloom rs) = Ok bb ->
  DecodeReceipts rb = Ok decoded ->
  Forall2 same_persisted rs decoded ->
  r ∈ rs ->
  exists g r',
    (Receipts.GetByTransactionID (StorageReceipt.TxHash r)
       (visible_after (Receipts.Store rs st).2)).1 = Ok g
    /\ r' ∈ rs
    /\ StorageReceipt.TxHash r' = StorageReceipt.TxHash r
    /\ receipt_rehydrated r' g.
Proof.
  intros Hw Hr Hall Hrb Hbb Hdec Hsame Hin.
  assert (Hst : accepts_writes st) by (intros _; exact Hw).
  assert (Hc : height_check (map receipt_height rs) 0 = Some h).
  { rewrite (height_check_uniform _ 0 h); [| by apply Forall_fmap | by left].
    destruct rs; [by apply elem_of_nil in Hin | done]. }
  rewrite (Store_accepted rs st h rb bb Hst Hc Hrb Hbb). cbn [snd].
  destruct (visible_after_put_all
              (tx_writes rs
               ++ [(makePrefix receiptHeightKey [uint64Bytes h], rb);
                   (makePrefix bloomHeightKey [uint64Bytes h], bb)]) st Hw)
    as [Hdb Hreads].
  set (s' := visible_after _) in *.
  rewrite apply_batch_app, !makePrefix_one in Hdb. simpl in Hdb.
  assert (Htx : db s' !! (receiptTxIDToHeightKey :: StorageReceipt.TxHash r)
                = Some (uint64Bytes h)).
  { rewrite Hdb.
    unfold receiptTxIDToHeightKey, receiptHeightKey, bloomHeightKey.
    rewrite !lookup_insert_ne by congruence.
    apply apply_batch_lookup_mem.
    - unfold tx_writes. apply list_elem_of_fmap. exists r. split; [| done].
      rewrite makePrefix_one. f_equal. f_equal.
      by eapply Forall_forall in Hall.
    - intros v' Hv'. unfold tx_writes in Hv'.
      apply list_elem_of_fmap in Hv' as (r'' & Heq & Hr'').
      eapply Forall_forall in Hall; [| exact Hr'']. simpl in Hall.
      injection Heq as _ ->. by rewrite Hall. }
  assert (Hrcp : db s' !! (receiptHeightKey :: uint64Bytes h) = Some rb).
  { rewrite Hdb. unfold receiptHeightKey, bloomHeightKey.
    rewrite lookup_insert_ne by congruence. apply lookup_insert_eq. }
  assert (Hget : Receipts.getByBlockHeight (uint64Bytes h) None s'
                 = (Ok (map Receipts.populate decoded), s')).
  { unfold Receipts.getByBlockHeight.
    rewrite (bind_ok _ _ s' rb s')
      by (unfold Receipts.store_get, Storage_get;
          by rewrite Hreads, Hr, makePrefix_one, Hrcp).
    rewrite (bind_ok _ _ s' decoded s')
      by (apply wrapping_ok; unfold lift; by rewrite Hdec).
    reflexivity. }
  unfold Receipts.GetByTransactionID.
  rewrite (bind_ok _ _ s' (uint64Bytes h) s')
    by (apply wrapping_ok; unfold Receipts.store_get, Storage_get;
        by rewrite Hreads, Hr, makePrefix_one, Htx).
  rewrite (bind_ok _ _ s' (map Receipts.populate decoded) s')
    by (apply wrapping_ok, Hget).
  destruct (find _ (map Receipts.populate decoded)) as [g |] eqn:Hfind.
  - apply find_some in Hfind as [Hg Hhash].
    apply bool_decide_eq_true in Hhash.
    apply list_elem_of_In, list_elem_of_fmap in Hg as (d & -> & Hd).
    apply list_elem_of_lookup in Hd as [i Hi].
    destruct (Forall2_lookup_r _ _ _ _ _ Hsame Hi) as (r' & Hr' & Hp).
    exists (Receipts.populate d), r'. split_and!; [done | | |].
    + by eapply list_elem_of_lookup_2.
    + destruct Hp as (_ & Ht & _). simpl in Hhash. congruence.
    + by apply populate_rehydrates.
  - exfalso.
    apply list_elem_of_lookup in Hin as [i Hi].
    destruct (Forall2_lookup_l _ _ _ _ _ Hsame Hi) as (d & Hd & Hp).
    assert (Hmem : In (Receipts.populate d) (map Receipts.populate decoded)).
    { apply list_elem_of_In, list_elem_of_fmap. exists d. split; [done |].
      by eapply list_elem_of_lookup_2. }
    pose proof (find_none _ _ Hfind _ Hmem) as Hno.
    apply bool_decide_eq_false in Hno. apply Hno.
    destruct Hp as (_ & Ht & _). simpl. exact Ht.
Qed.

Lemma GetByTransactionID_after_Store_witness :
  exists g r',
    (Receipts.GetByTransactionID (H := fixture_codec) [171]
       (visible_after
          (Receipts.Store (H := fixture_codec) [receipt_a; receipt_b]
                          (empty_storage, None)).2)).1 = Ok g
    /\ r' ∈ [receipt_a; receipt_b]
    /\ StorageReceipt.TxHash r' = [171]
    /\ receipt_rehydrated r' g.
Proof.
  apply (GetByTransactionID_after_Store (H := fixture_codec)
           (empty_storage, None) [receipt_a; receipt_b] 5
           [192; 170; 171] [192; 10; 11]
           [decoded_receipt receipt_a; decoded_receipt receipt_b] receipt_b).
  - reflexivity.
  - reflexivity.
  - repeat constructor.
  - reflexivity.
  - reflexivity.
  - vm_compute. reflexivity.
  - repeat constructor; apply fixture_same_persisted.
  - apply elem_of_cons. right. apply list_elem_of_singleton. reflexivity.
Defined.

(** ** Receipt index: further properties of [BloomsForBlockRange] *)

Lemma BloomsForBlockRange_rejects_witness :
  exists msg,
    Receipts.BloomsForBlockRange (H := fixture_codec) 4 3 store_at_max
    = (Err (ErrWrap msg ErrInvalidBlockRange), store_at_max).
Proof.
  apply (BloomsForBlockRange_rejects (H := fixture_codec) store_at_max 4 3
           MaxUint64).
  - reflexivity.
  - vm_compute. reflexivity.
  - left. lia.
Defined.

(** X15: a reversed range is rejected before the store is looked at, so
    also on a store that cannot be read or was never initialised; a
    proper range on a readable store with no latest height fails with an
    error that wraps [NotFound] and is not the block-range error. *)
Theorem BloomsForBlockRange_before_bounds_known `{ReceiptCodec} s start end_ :
  (start > end_ ->
   Receipts.BloomsForBlockRange start end_ s
   = (Err (ErrWrap "start value is bigger than end value" ErrInvalidBlockRange),
      s))
  /\ (start <= end_ -> reads_ok s = true ->
      db s !! [latestEVMHeightKey] = None ->
      exists e, Receipts.BloomsForBlockRange start end_ s = (Err e, s)
                /\ errors_Is e ErrNotFound = true
                /\ errors_Is e ErrInvalidBlockRange = false).
Proof.
  unfold Receipts.BloomsForBlockRange. split.
  - intros Hgt. by rewrite decide_True.
  - intros Hle Hr Hnone. rewrite decide_False by lia.
    unfold Receipts.getLast, bind, wrapping, Receipts.store_get.
    rewrite Storage_get_ok, makePrefix_nil, Hnone by done.
    eexists. split; [reflexivity |]. by vm_compute.
Qed.

Lemma BloomsForBlockRange_before_bounds_known_witness :
  Receipts.BloomsForBlockRange (H := fixture_codec) 4 3
    (mkStorage ∅ false None)
  = (Err (ErrWrap "start value is bigger than end value" ErrInvalidBlockRange),
     mkStorage ∅ false None).
Proof.
  refine (proj1 (BloomsForBlockRange_before_bounds_known (H := fixture_codec)
                   (mkStorage ∅ false None) 4 3) _). lia.
Defined.

Lemma seqZ_sorted m n : StronglySorted Z.lt (seqZ m n).
Proof.
  remember (Z.to_nat n) as k eqn:Hk. revert m n Hk.
  induction k as [| k IH]; intros m n Hk.
  - rewrite seqZ_nil by lia. constructor.
  - rewrite seqZ_cons by lia. constructor.
    + apply IH. lia.
    + apply Forall_forall. intros x Hx. apply elem_of_seqZ in Hx. lia.
Qed.

Lemma height_lt_of_heights (out : list BloomsHeight.t) :
  StronglySorted Z.lt (BloomsHeight.Height <$> out) ->
  StronglySorted height_lt out.
Proof.
  induction out as [| e out IH]; intros Hs; [constructor |].
  simpl in Hs. apply StronglySorted_inv in Hs as [Hs Hall].
  constructor; [by apply IH |]. by rewrite Forall_fmap in Hall.
Qed.

Lemma height_lt_NoDup (l : list BloomsHeight.t) :
  StronglySorted height_lt l -> NoDup l.
Proof.
  induction 1 as [| e l Hs IH Hall]; [constructor |].
  constructor; [| done]. intros Hin.
  eapply Forall_forall in Hall; [| exact Hin]. unfold height_lt in Hall. lia.
Qed.

Lemma bloom_entry_Some `{ReceiptCodec} s x bl h :
  bloom_entry s x = Some (BloomsHeight.mk bl h) <->
  x = h /\ bloom_at s h = Some bl.
Proof.
  unfold bloom_entry. destruct (bloom_at s x) as [bl' |] eqn:Hx; simpl.
  - split.
    + intros ?; simplify_eq. done.
    + intros [-> Hb]. rewrite Hx in Hb. by simplify_eq.
  - split; [done |]. intros [-> Hb]. by rewrite Hx in Hb.
Qed.

Lemma blooms_in_range_sorted `{ReceiptCodec} s start end_ :
  StronglySorted height_lt (blooms_in_range s start end_).
Proof.
  unfold blooms_in_range.
  pose proof (seqZ_sorted start (end_ - start + 1)) as Hs.
  induction Hs as [| x l Hs IH Hall]; simpl; [constructor |].
  destruct (bloom_entry s x) as [[bl h] |] eqn:Hx; simpl; [| done].
  apply bloom_entry_Some in Hx as [-> _].
  constructor; [done |]. apply Forall_forall. intros [bl' h'] Hin.
  apply list_elem_of_omap in Hin as (x' & Hx' & He).
  apply bloom_entry_Some in He as [-> _].
  eapply Forall_forall in Hall; [| exact Hx']. by unfold height_lt.
Qed.

(** X13: for [0 <= start <= end <= latest] with [end] below the largest
    [uint64], on a readable store with a well-formed bloom index, the
    range query returns exactly, for the heights [start, ..., end] in
    ascending order, the bloom list of every height that has one; the
    store is unchanged. *)
Theorem BloomsForBlockRange_lists_stored_heights `{ReceiptCodec} s start end_ last :
  reads_ok s = true ->
  stored_height s latestEVMHeightKey = Some last ->
  bloom_index_wf (db s) ->
  0 <= start <= end_ ->
  end_ <= last ->
  end_ < MaxUint64 ->
  Receipts.BloomsForBlockRange start end_ s
  = (Ok (blooms_in_range s start end_), s).
Proof.
  intros Hr Hs Hwf Hse Hel Hmax.
  destruct (BloomsForBlockRange_in_range s start end_ last Hr Hs Hwf Hse Hel Hmax)
    as (out & -> & Hsorted & Hmem).
  f_equal. f_equal.
  apply height_lt_of_heights in Hsorted.
  apply (StronglySorted_unique_strong height_lt).
  - unfold height_lt. intros; lia.
  - exact Hsorted.
  - apply blooms_in_range_sorted.
  - apply NoDup_Permutation.
    + by apply height_lt_NoDup.
    + apply height_lt_NoDup, blooms_in_range_sorted.
    + intros [bl h]. rewrite Hmem. unfold blooms_in_range.
      rewrite list_elem_of_omap. split.
      * intros [Hrange Hat]. exists h. split.
        -- apply elem_of_seqZ. lia.
        -- by apply bloom_entry_Some.
      * intros (x & Hx & He). apply bloom_entry_Some in He as [-> Hat].
        apply elem_of_seqZ in Hx. split; [lia | done].
Qed.

Lemma bloom_index_wf_store_at_max :
  bloom_index_wf (H := fixture_codec) (db store_at_max).
Proof.
  apply bloom_index_wf_of_list.
  let l := eval vm_compute in (map_to_list (db store_at_max)) in
  assert (Hl : map_to_list (db store_at_max) = l) by (vm_compute; reflexivity).
  rewrite Hl. clear Hl.
  unfold bloom_entry_wf, bloomHeightKey.
  repeat (apply Forall_cons_2); try apply Forall_nil_2; cbn [fst snd head];
    try (intros Hh; discriminate Hh); intros _.
  - exists MaxUint64. split_and!; [unfold is_uint64, MaxUint64; lia
                                  | vm_compute; reflexivity | reflexivity].
  - exists 3. split_and!; [unfold is_uint64, MaxUint64; lia | reflexivity
                          | reflexivity].
Qed.

Lemma BloomsForBlockRange_lists_stored_heights_witness :
  Receipts.BloomsForBlockRange (H := fixture_codec) 2 4 store_at_max
  = (Ok (blooms_in_range (H := fixture_codec) store_at_max 2 4), store_at_max).
Proof.
  apply (BloomsForBlockRange_lists_stored_heights (H := fixture_codec)
           store_at_max 2 4 MaxUint64).
  - reflexivity.
  - vm_compute. reflexivity.
  - apply bloom_index_wf_store_at_max.
  - lia.
  - unfold MaxUint64. lia.
  - unfold MaxUint64. lia.
Defined.

Lemma apply_batch_lookup_other (ws : list (list Z * list Z))
    (m : gmap (list Z) (list Z)) (k : list Z) :
  Forall (fun kv => kv.1 <> k) ws ->
  apply_batch ws m !! k = m !! k.
Proof.
  intros Hall. revert m.
  induction Hall as [| [k' v'] ws Hne Hall IH]; intros m; simpl; [done |].
  rewrite IH. by apply lookup_insert_ne.
Qed.

(** X16: storing the receipts of one height [h] directly and then asking
    for the range [h, h] gives exactly one entry, of height [h], holding
    the decoding of the bloom list [Store] encoded (one bloom per
    receipt, in the receipts' order), provided [h] is within the latest
    height and the bloom index was well formed. *)
Theorem BloomsForBlockRange_after_Store `{ReceiptCodec} s rs h rb bb bl last :
  writes_left s = None ->
  reads_ok s = true ->
  stored_height s latestEVMHeightKey = Some last ->
  bloom_index_wf (db s) ->
  Forall (fun r => receipt_height r = h) rs ->
  (rs = [] -> h = 0) ->
  h <= last ->
  h < MaxUint64 ->
  EncodeReceipts rs = Ok rb ->
  EncodeBlooms (map StorageReceipt.Bloom rs) = Ok bb ->
  DecodeBlooms bb = Ok bl ->
  (Receipts.BloomsForBlockRange h h (Receipts.Store rs (s, None)).2.1).1
  = Ok [BloomsHeight.mk bl h].
Proof.
  intros Hw Hr Hlast Hwf Hall Hnil Hle Hmax Hrb Hbb Hbl.
  assert (Hst : accepts_writes (s, None)) by (intros _; exact Hw).
  assert (Hc : height_check (map receipt_height rs) 0 = Some h).
  { rewrite (height_check_uniform _ 0 h); [| by apply Forall_fmap | by left].
    destruct rs; simpl; [by rewrite Hnil | done]. }
  assert (H0 : 0 <= h).
  { destruct rs as [| r rs']; [by rewrite Hnil |].
    apply Forall_cons in Hall as [<- _].
    pose proof (BigInt_Uint64_range (StorageReceipt.BlockNumber r)) as Hu.
    unfold is_uint64 in Hu. unfold receipt_height. lia. }
  pose proof (Store_keeps_bloom_index_wf rs s h rb bb Hw Hc Hrb Hbb
                ltac:(by rewrite Hbl) Hwf) as Hwf'.
  assert (Hs' : (Receipts.Store rs (s, None)).2.1
                = mkStorage
                    (apply_batch
                       (tx_writes rs
                        ++ [(receiptHeightKey :: uint64Bytes h, rb);
                            (bloomHeightKey :: uint64Bytes h, bb)]) (db s))
                    (reads_ok s) (writes_left s)).
  { rewrite (Store_accepted rs (s, None) h rb bb Hst Hc Hrb Hbb).
    by rewrite !makePrefix_one. }
  set (s' := (Receipts.Store rs (s, None)).2.1) in *.
  assert (Hr' : reads_ok s' = true) by (by rewrite Hs').
  assert (Hlast' : stored_height s' latestEVMHeightKey = Some last).
  { unfold stored_height in *. rewrite Hs'. cbn [db].
    rewrite apply_batch_lookup_other; [done |].
    apply Forall_app. split.
    - unfold tx_writes. apply Forall_fmap, Forall_forall. intros r _.
      simpl. rewrite makePrefix_one. discriminate.
    - repeat constructor; simpl; discriminate. }
  assert (Hat : bloom_at s' h = Some bl).
  { unfold bloom_at. rewrite Hs'. cbn [db]. rewrite apply_batch_app. simpl.
    by rewrite lookup_insert_eq, Hbl. }
  destruct (BloomsForBlockRange_in_range s' h h last Hr' Hlast' Hwf'
              ltac:(lia) Hle Hmax) as (out & -> & Hsorted & Hmem).
  cbn [fst]. f_equal.
  assert (Hin : BloomsHeight.mk bl h ∈ out) by (apply Hmem; split; [lia | done]).
  assert (Honly : forall e, e ∈ out -> e = BloomsHeight.mk bl h).
  { intros [bl' h'] He. apply Hmem in He as [Hrange Hat'].
    assert (h' = h) as -> by lia. rewrite Hat in Hat'. by simplify_eq. }
  destruct out as [| e [| e' out]].
  - by apply elem_of_nil in Hin.
  - f_equal. apply Honly. by left.
  - exfalso. simpl in Hsorted.
    apply StronglySorted_inv in Hsorted as [_ Hhd].
    apply Forall_cons in Hhd as [Hlt _].
    rewrite (Honly e), (Honly e') in Hlt; [simpl in Hlt; lia | | ].
    + right. by left.
    + by left.
Qed.

Lemma BloomsForBlockRange_after_Store_witness :
  (Receipts.BloomsForBlockRange (H := fixture_codec) 5 5
     (Receipts.Store (H := fixture_codec) [receipt_a; receipt_b]
                     (store_at_max, None)).2.1).1
  = Ok [BloomsHeight.mk [[10]; [11]] 5].
Proof.
  apply (BloomsForBlockRange_after_Store (H := fixture_codec) store_at_max
           [receipt_a; receipt_b] 5 [192; 170; 171] [192; 10; 11]
           [[10]; [11]] MaxUint64).
  - reflexivity.
  - reflexivity.
  - vm_compute. reflexivity.
  - apply bloom_index_wf_store_at_max.
  - repeat constructor.
  - discriminate.
  - unfold MaxUint64. lia.
  - unfold MaxUint64. lia.
  - reflexivity.
  - reflexivity.
  - reflexivity.
Defined.

(** ** The independence of the two indexes *)

(** What the plain reads of the receipt index answer, as a function of
    the two lookups they make. *)
Lemma getByBlockHeight_result `{ReceiptCodec} hb s :
  (Receipts.getByBlockHeight hb None s).1
  = match Storage_get s receiptHeightKey [hb] with
    | Ok val =>
        match DecodeReceipts val with
        | Ok decoded => Ok (map Receipts.populate decoded)
        | Err e =>
            Err (ErrWrap "failed to RLP-decode block receipts at height" e)
        end
    | Err e => Err e
    end.
Proof.
  unfold Receipts.getByBlockHeight, bind, wrapping, lift, Receipts.store_get.
  destruct (Storage_get s receiptHeightKey [hb]) as [val |]; [| done].
  by destruct (DecodeReceipts val).
Qed.

Lemma Storage_get_same s s' code key :
  reads_ok s' = reads_ok s ->
  db s' !! makePrefix code key = db s !! makePrefix code key ->
  Storage_get s' code key = Storage_get s code key.
Proof. intros Hr Hk. unfold Storage_get. by rewrite Hr, Hk. Qed.

Lemma block_writes_prefix_foreign (ch : Z) (blk : Block) (val id : list Z)
    (n : nat) (k : list Z) (m : gmap (list Z) (list Z)) :
  hd 0 k <> blockHeightKey -> hd 0 k <> blockIDToHeightKey ->
  hd 0 k <> evmHeightToCadenceHeightKey -> hd 0 k <> latestEVMHeightKey ->
  apply_batch (take n (block_writes ch blk val id)) m !! k = m !! k.
Proof.
  intros H1 H2 H3 H4. apply apply_batch_lookup_other, Forall_take.
  unfold block_writes. rewrite !makePrefix_one.
  change (makePrefix latestEVMHeightKey [[]]) with [latestEVMHeightKey].
  repeat constructor; simpl; intros <-; simpl in *; done.
Qed.

(** X18: [Blocks.Store] writes only under the three block codes and the
    latest-height code.  However the call ends, every other key is as
    before, so the receipt index answers as before and a well-formed
    bloom index stays well formed. *)
Theorem Blocks_Store_leaves_receipt_index `{BlockCodec} `{ReceiptCodec} b ch blk :
  let s := Blocks.store b in
  let s' := Blocks.store (Blocks.Store ch blk b).2 in
  (forall k, hd 0 k <> blockHeightKey -> hd 0 k <> blockIDToHeightKey ->
             hd 0 k <> evmHeightToCadenceHeightKey ->
             hd 0 k <> latestEVMHeightKey ->
             db s' !! k = db s !! k)
  /\ (forall h, (Receipts.GetByBlockHeight h s').1
                = (Receipts.GetByBlockHeight h s).1)
  /\ (bloom_index_wf (db s) -> bloom_index_wf (db s')).
Proof.
  intros s s'.
  assert (Hkeys : forall k, hd 0 k <> blockHeightKey ->
            hd 0 k <> blockIDToHeightKey ->
            hd 0 k <> evmHeightToCadenceHeightKey ->
            hd 0 k <> latestEVMHeightKey ->
            db s' !! k = db s !! k).
  { subst s s'.
    destruct (Store_effect b ch blk)
      as [-> | (val & id & n & _ & _ & _ & -> & _)]; [done |].
    intros k H1 H2 H3 H4. by apply block_writes_prefix_foreign. }
  assert (Hreads : reads_ok s' = reads_ok s).
  { subst s s'.
    destruct (Store_effect b ch blk)
      as [-> | (val & id & n & _ & _ & _ & _ & -> & _)]; done. }
  split_and!; [exact Hkeys | |].
  - intros h. unfold Receipts.GetByBlockHeight.
    rewrite !getByBlockHeight_result.
    rewrite (Storage_get_same s s'); [done | done |].
    rewrite makePrefix_one. by apply Hkeys.
  - intros Hwf k v Hlook Hhead. simpl in Hhead.
    apply (Hwf k v); [| done].
    rewrite <- Hkeys; [done | | | |]; destruct k as [| c k']; simpl in *;
      simplify_eq; done.
Qed.

Lemma Storage_set_direct_effect code (key value : list Z) s :
  exists s1 ws,
    (Storage_set code key value (s, None)).2 = (s1, None)
    /\ db s1 = apply_batch ws (db s)
    /\ reads_ok s1 = reads_ok s
    /\ Forall (fun kv => hd 0 kv.1 = code) ws.
Proof.
  unfold Storage_set, engine_set. destruct s as [d r [[| n] |]]; cbn.
  - exists (mkStorage d r (Some 0%nat)), []. by split_and!.
  - eexists _, [(makePrefix code [key], value)].
    split_and!; [done | done | done | by repeat constructor].
  - eexists _, [(makePrefix code [key], value)].
    split_and!; [done | done | done | by repeat constructor].
Qed.

Lemma writes_under_pure P {A} (m : M (Storage * option (list (list Z * list Z))) A) :
  (forall st, (m st).2 = st) -> writes_under P m.
Proof.
  intros Hm s. exists s, []. rewrite Hm. by split_and!.
Qed.

Lemma writes_under_bind P {A B}
    (m : M (Storage * option (list (list Z * list Z))) A)
    (k : A -> M (Storage * option (list (list Z * list Z))) B) :
  writes_under P m -> (forall a, writes_under P (k a)) ->
  writes_under P (bind m k).
Proof.
  intros Hm Hk s. destruct (Hm s) as (s1 & ws1 & E1 & Hdb1 & Hr1 & Hall1).
  unfold bind. destruct (m (s, None)) as [[a | e] st1]; simpl in E1; subst st1.
  - destruct (Hk a s1) as (s2 & ws2 & E2 & Hdb2 & Hr2 & Hall2).
    exists s2, (ws1 ++ ws2). split_and!; [done | | congruence |].
    + by rewrite apply_batch_app, <- Hdb1.
    + by apply Forall_app.
  - by exists s1, ws1.
Qed.

Lemma writes_under_wrapping P {A} msg
    (m : M (Storage * option (list (list Z * list Z))) A) :
  writes_under P m -> writes_under P (wrapping msg m).
Proof.
  intros Hm s. destruct (Hm s) as (s1 & ws1 & E1 & Hrest).
  exists s1, ws1. split; [| done]. unfold wrapping.
  by destruct (m (s, None)) as [[a | e] st1].
Qed.

Lemma writes_under_set (P : Z -> Prop) code (key value : list Z) :
  P code -> writes_under P (Storage_set code key value).
Proof.
  intros HP s.
  destruct (Storage_set_direct_effect code key value s)
    as (s1 & ws & E & Hdb & Hr & Hall).
  exists s1, ws. split_and!; try done.
  eapply Forall_impl; [exact Hall |]. by intros kv ->.
Qed.

Lemma writes_under_store_loop `{ReceiptCodec} rs height blooms :
  writes_under receipt_code (Receipts.store_loop rs height blooms).
Proof.
  revert height blooms. induction rs as [| r rs IH]; intros height blooms; simpl.
  - by apply writes_under_pure.
  - destruct (decide _); [by apply writes_under_pure |].
    apply writes_under_bind; [| intros _; apply IH].
    apply writes_under_wrapping, writes_under_set. by left.
Qed.

Lemma writes_under_Store `{ReceiptCodec} rs :
  writes_under receipt_code (Receipts.Store rs).
Proof.
  unfold Receipts.Store.
  apply writes_under_bind; [apply writes_under_store_loop |]. intros acc.
  apply writes_under_bind; [by apply writes_under_pure |]. intros rb.
  apply writes_under_bind.
  { apply writes_under_wrapping, writes_under_set. right. by left. }
  intros _. apply writes_under_bind.
  { apply writes_under_wrapping. by apply writes_under_pure. }
  intros bb. apply writes_under_wrapping, writes_under_set. right. by right.
Qed.

(** X19: [Receipts.Store] without a batch writes only under the three
    receipt codes.  However the call ends, every other key is as
    before; in particular both watermarks and every stored block are
    untouched. *)
Theorem Receipts_Store_leaves_block_index `{ReceiptCodec} `{BlockCodec} rs s :
  let s' := (Receipts.Store rs (s, None)).2.1 in
  (forall k, ~ receipt_code (hd 0 k) -> db s' !! k = db s !! k)
  /\ reads_ok s' = reads_ok s
  /\ stored_height s' firstEVMHeightKey = stored_height s firstEVMHeightKey
  /\ stored_height s' latestEVMHeightKey = stored_height s latestEVMHeightKey
  /\ (forall h, block_at s' h = block_at s h).
Proof.
  intros s'. subst s'.
  destruct (writes_under_Store rs s) as (s1 & ws & E & Hdb & Hr & Hall).
  rewrite E. cbn [fst].
  assert (Hkeys : forall k, ~ receipt_code (hd 0 k) -> db s1 !! k = db s !! k).
  { intros k Hk. rewrite Hdb. apply apply_batch_lookup_other.
    eapply Forall_impl; [exact Hall |]. intros kv Hkv Heq.
    apply Hk. by rewrite <- Heq. }
  assert (Hnot : forall c, c <> receiptTxIDToHeightKey -> c <> receiptHeightKey ->
                           c <> bloomHeightKey -> ~ receipt_code c).
  { intros c H1 H2 H3 [? | [? | ?]]; done. }
  split_and!; [exact Hkeys | exact Hr | | |].
  - unfold stored_height. rewrite Hkeys; [done |]. by apply Hnot.
  - unfold stored_height. rewrite Hkeys; [done |]. by apply Hnot.
  - intros h. unfold block_at. rewrite Hkeys; [done |]. by apply Hnot.
Qed.

(** X20: the block reads on keys that are not stored: an id that is not
    indexed, an indexed id whose height holds no block, and a height
    with no Cadence height all answer [NotFound] and change nothing. *)
Theorem block_reads_of_missing_keys `{BlockCodec} b :
  reads_ok (Blocks.store b) = true ->
  (forall id, db (Blocks.store b) !! (blockIDToHeightKey :: id) = None ->
              Blocks.GetByID id b = (Err ErrNotFound, b))
  /\ (forall id hb,
        db (Blocks.store b) !! (blockIDToHeightKey :: id) = Some hb ->
        db (Blocks.store b) !! (blockHeightKey :: hb) = None ->
        Blocks.GetByID id b = (Err ErrNotFound, b))
  /\ (forall h,
        db (Blocks.store b) !! (evmHeightToCadenceHeightKey :: uint64Bytes h)
        = None ->
        Blocks.GetCadenceHeight h b = (Err ErrNotFound, b)).
Proof.
  intros Hr. split_and!.
  - intros id Hnone. unfold Blocks.GetByID, bind, Blocks.store_get.
    by rewrite Storage_get_ok, makePrefix_one, Hnone.
  - intros id hb Hid Hnone.
    unfold Blocks.GetByID, Blocks.getBlock, bind, Blocks.store_get.
    rewrite Storage_get_ok, makePrefix_one, Hid by done.
    by rewrite Storage_get_ok, makePrefix_one, Hnone.
  - intros h Hnone.
    unfold Blocks.GetCadenceHeight, Blocks.getCadenceHeight, bind,
      Blocks.store_get.
    by rewrite Storage_get_ok, makePrefix_one, Hnone.
Qed.

Lemma block_reads_of_missing_keys_witness :
  Blocks.GetByID (H := plain_block_codec) [1; 2] blocks_init5
  = (Err ErrNotFound, blocks_init5).
Proof.
  refine (proj1 (block_reads_of_missing_keys (H := plain_block_codec)
                   blocks_init5 _) [1; 2] _); reflexivity.
Defined.

Lemma Blocks_Store_leaves_receipt_index_witness :
  (Receipts.GetByBlockHeight (H := fixture_codec) 5
     (Blocks.store (Blocks.Store (H := plain_block_codec) 42 block7
                                 blocks_init5).2)).1
  = (Receipts.GetByBlockHeight (H := fixture_codec) 5
       (Blocks.store blocks_init5)).1.
Proof.
  exact (proj1 (proj2 (Blocks_Store_leaves_receipt_index
                         (H := plain_block_codec) (H0 := fixture_codec)
                         blocks_init5 42 block7)) 5).
Defined.

Lemma Receipts_Store_leaves_block_index_witness :
  stored_height
    (Receipts.Store (H := fixture_codec) [receipt_a; receipt_b]
                    (store_at_max, None)).2.1 latestEVMHeightKey
  = stored_height store_at_max latestEVMHeightKey.
Proof.
  exact (proj1 (proj2 (proj2 (proj2
           (Receipts_Store_leaves_block_index
              (H := fixture_codec) (H0 := plain_block_codec)
              [receipt_a; receipt_b] store_at_max))))).
Defined.
